(** * convert_logging.py: rewriting legacy [Logger::log] calls

    A shallow embedding of [src/convert_logging.py] and the properties of
    its line rewriter.  Python [str] values are sequences of Unicode code
    points; the regular expression of [convert_logger_log] is run by a
    backtracking matcher with greedy quantifiers, as Python's [re] does. *)

From Stdlib Require Import Ascii String.
From stdpp Require Import gmap strings list.

Set Default Proof Using "Type".

Local Open Scope N_scope.
Local Open Scope list_scope.

(** ** Text *)

(** A code point; a Python [str] is a list of them. *)
Definition char : Type := N.
Definition text : Type := list char.

Definition chr (a : ascii) : char := N_of_ascii a.

(** An ASCII literal of the source as a [text]. *)
Fixpoint str (s : string) : text :=
  match s with
  | EmptyString => []
  | String a s' => chr a :: str s'
  end.

Arguments str _ : simpl never.

(** The double-quote character. *)
Definition dquote : char := 34.
(** The line feed, ['\n']. *)
Definition newline : char := 10.
(** The carriage return, ['\r']. *)
Definition cr : char := 13.

(** [s.startswith(p)], returning what follows the prefix. *)
Fixpoint strip_prefix (p s : text) : option text :=
  match p with
  | [] => Some s
  | a :: p' =>
      match s with
      | [] => None
      | b :: s' => if a =? b then strip_prefix p' s' else None
      end
  end.

Definition starts_with (p s : text) : bool :=
  match strip_prefix p s with Some _ => true | None => false end.

(** Python's [p in s] on strings: [p] occurs in [s] as a substring. *)
Fixpoint contains (p s : text) : bool :=
  starts_with p s ||
  match s with
  | [] => false
  | _ :: s' => contains p s'
  end.

(** ** Character classes *)

(** How the Unicode database classifies a code point, as far as [\s] and
    [\w] look at it: white space, alphanumeric, or neither. *)
Inductive ukind : Type := USpace | UAlnum | UOther.

(** Python's table of ASCII white space: TAB, LF, VT, FF, CR, the four
    separators FS, GS, RS, US, and the space. *)
Definition ascii_space (c : char) : bool :=
  ((9 <=? c) && (c <=? 13)) || ((28 <=? c) && (c <=? 31)) || (c =? 32).

Definition ascii_alnum (c : char) : bool :=
  ((48 <=? c) && (c <=? 57)) || ((65 <=? c) && (c <=? 90))
  || ((97 <=? c) && (c <=? 122)).

Definition underscore : char := 95.

Inductive cclass : Type :=
  | CSpace                (* \s *)
  | CWord                 (* \w *)
  | CNot (c : char).      (* [^c] *)

(** ** Regular expressions *)

(** The constructs the pattern of [convert_logger_log] is written with.
    Quantifiers are greedy and apply to a character class. *)
Inductive regex : Type :=
  | Lit (l : text)                (* a literal string *)
  | Star (c : cclass)             (* c* *)
  | Plus (c : cclass)             (* c+ *)
  | Cat (r1 r2 : regex)           (* r1 r2 *)
  | Group (n : nat) (r : regex)   (* ( r ), the n-th capturing group *)
  | Opt (r : regex).              (* (?: r )? *)

Declare Scope regex_scope.
Delimit Scope regex_scope with re.
Bind Scope regex_scope with regex.
Infix "·" := Cat (at level 60, right associativity) : regex_scope.

(** A match object: the text captured by each group that took part. *)
Abbreviation groups := (gmap nat text).

(** The exceptions the file operations of the script raise, with the
    path given to [open]: the classes of [OSError] the interpreter has
    for the common failures, any other failure of the operating system
    ([OSError], with its message), and the failure to decode the bytes
    of a file as text ([UnicodeDecodeError], with the codec's
    message). *)
Inductive exn : Type :=
  | FileNotFoundError (path : text)
  | PermissionError (path : text)
  | IsADirectoryError (path : text)
  | NotADirectoryError (path : text)
  | OSError (message : text)
  | UnicodeDecodeError (message : text).

(** A file-system entry: a regular file whose bytes decode to the text
    [content], a regular file whose bytes the codec refuses with the
    exception [e], either with whether the process may read and write
    it, or a directory. *)
Inductive node : Type :=
  | File (content : text) (readable writable : bool)
  | Undecodable (e : exn) (readable writable : bool)
  | Directory.

(** What the process acts on: the files, each under its name, and the
    lines printed so far. *)
Record world : Type := World {
  files : gmap text node;
  stdout : list text
}.

(** The table that knows no white space or letter beyond ASCII: any
    table will do for a line that is ASCII. *)
Definition ascii_only : char -> ukind := fun _ => UOther.

(** [str(e)] as CPython words it, for a path that [repr] shows as it
    is between single quotes; to run the script on an example. *)
Definition errno_text (e : exn) : text :=
  match e with
  | FileNotFoundError p =>
      str "[Errno 2] No such file or directory: '" ++ p ++ str "'"
  | PermissionError p => str "[Errno 13] Permission denied: '" ++ p ++ str "'"
  | IsADirectoryError p => str "[Errno 21] Is a directory: '" ++ p ++ str "'"
  | NotADirectoryError p => str "[Errno 20] Not a directory: '" ++ p ++ str "'"
  | OSError m => m
  | UnicodeDecodeError m => m
  end.

(** A way of naming files, to run the script on an example: a leading
    [./] is not part of the name, and a path that goes on after a [.cpp]
    file takes a file for a directory. *)
Definition plain_resolve (p : text) : exn + text :=
  if contains (str ".cpp/") p then inl (NotADirectoryError p)
  else if starts_with (str "./") p then inr (drop 2 p)
  else inr p.

Section Interpreter.

(** The classification of the code points beyond ASCII is the Unicode
    database's; the rewriter is verified for every such table. *)
Variable unicode_kind : char -> ukind.

(** [str(e)] of an exception, the interpreter's wording of the cause. *)
Variable exn_str : exn -> text.

(** What the operating system makes of a path given to [open]: the
    file it leads to, under the one name the file is kept by in [files]
    whatever the path that leads there ([a.cpp] and [./a.cpp], a link
    and its target), or the error [open] raises when the path leads
    nowhere (a missing directory, a file taken for a directory, a
    directory that may not be searched).  The script creates and
    removes no file, so this does not change while it runs. *)
Variable resolve : text -> exn + text.

(** [\s] on a [str] pattern. *)
Definition is_space (c : char) : bool :=
  if c <? 128 then ascii_space c
  else match unicode_kind c with USpace => true | _ => false end.

(** [\w] on a [str] pattern: alphanumeric, or the underscore. *)
Definition is_word (c : char) : bool :=
  if c <? 128 then ascii_alnum c || (c =? underscore)
  else match unicode_kind c with UAlnum => true | _ => false end.

Definition in_class (k : cclass) (c : char) : bool :=
  match k with
  | CSpace => is_space c
  | CWord => is_word c
  | CNot d => negb (c =? d)
  end.

(** *** The backtracking matcher *)

(** [star k s g cont]: take as many characters of class [k] as there
    are, then give back one at a time until the continuation succeeds. *)
Fixpoint star {R} (k : cclass) (s : text) (g : groups)
    (cont : text -> groups -> option R) : option R :=
  match s with
  | c :: s' =>
      if in_class k c then
        match star k s' g cont with
        | Some r => Some r
        | None => cont s g
        end
      else cont s g
  | [] => cont s g
  end.

(** [exec r s g cont] matches [r] at the start of [s]; [cont] receives
    what is left of [s] and the groups captured so far. *)
Fixpoint exec {R} (r : regex) (s : text) (g : groups)
    (cont : text -> groups -> option R) : option R :=
  match r with
  | Lit l =>
      match strip_prefix l s with
      | Some s' => cont s' g
      | None => None
      end
  | Star k => star k s g cont
  | Plus k =>
      match s with
      | c :: s' => if in_class k c then star k s' g cont else None
      | [] => None
      end
  | Cat r1 r2 => exec r1 s g (fun s' g' => exec r2 s' g' cont)
  | Group n r1 =>
      exec r1 s g
        (fun s' g' => cont s' (<[n := take (length s - length s') s]> g'))
  | Opt r1 =>
      match exec r1 s g cont with
      | Some x => Some x
      | None => cont s g
      end
  end.

(** [re.match]: a match at the start of [s], as the text after the
    match and the match object. *)
Definition match_at (r : regex) (s : text) : option (text * groups) :=
  exec r s ∅ (fun s' g => Some (s', g)).

(** [re.search]: is there a match starting anywhere in [s]? *)
Fixpoint has_match (r : regex) (s : text) : bool :=
  match match_at r s with
  | Some _ => true
  | None =>
      match s with
      | [] => false
      | _ :: s' => has_match r s'
      end
  end.

(** [re.sub] with a function as the replacement, for a pattern that
    matches no empty string: the leftmost match is replaced by what
    [repl] returns for it, and the scan goes on after the match.  Every
    step consumes a character, so [length s] rounds are enough
    ([sub_loop_fuel]). *)
Fixpoint sub_loop (r : regex) (repl : groups -> text) (fuel : nat)
    (s : text) : text :=
  match fuel with
  | O => s
  | S fuel' =>
      match s with
      | [] => []
      | c :: s' =>
          match match_at r s with
          | Some (rest, g) => repl g ++ sub_loop r repl fuel' rest
          | None => c :: sub_loop r repl fuel' s'
          end
      end
  end.

Definition re_sub (r : regex) (repl : groups -> text) (s : text) : text :=
  sub_loop r repl (length s) s.

(** ** The program *)

(** [mapping] of [convert_log_level]. *)
Definition mapping : gmap text text :=
  list_to_map
    [ (str "LogLevel::DEBUG", str "SLOG_DEBUG()");
      (str "LogLevel::INFO", str "SLOG_INFO()");
      (str "LogLevel::WARNING", str "SLOG_WARNING()");
      (str "LogLevel::ERROR_LEVEL", str "SLOG_ERROR()");
      (str "LogLevel::CRITICAL", str "SLOG_CRITICAL()") ].

(** [mapping.get(old_level, 'SLOG_INFO()')] *)
Definition convert_log_level (old_level : text) : text :=
  default (str "SLOG_INFO()") (mapping !! old_level).

(** The call name the script looks for. *)
Definition legacy_name : text := str "Logger::log".

(** The optional [, __FILE__, __LINE__] of the pattern. *)
Definition location_re : regex :=
  (Star CSpace · Lit (str ",") · Star CSpace · Lit (str "__FILE__")
   · Star CSpace · Lit (str ",") · Star CSpace · Lit (str "__LINE__"))%re.

(** What the pattern asks for after the message's closing quote. *)
Definition tail_re : regex :=
  (Opt location_re · Star CSpace · Lit (str ");"))%re.

(** [pattern]: the call name, an opening parenthesis, group 1 (the
    level: LogLevel:: and one or more word characters), a comma, a
    double quote, group 2 (the message: any run of characters other than
    the double quote), a double quote and [tail_re]; white space may
    surround the parentheses and commas where the source writes \s. *)
Definition pattern : regex :=
  (Lit legacy_name · Star CSpace · Lit (str "(") · Star CSpace
   · Group 1 (Lit (str "LogLevel::") · Plus CWord)
   · Star CSpace · Lit (str ",") · Star CSpace
   · Lit [dquote] · Group 2 (Star (CNot dquote)) · Lit [dquote]
   · tail_re)%re.

(** [match.group(n)]; both groups of [pattern] take part in every match
    ([match_at_pattern_inv]). *)
Definition group (m : groups) (n : nat) : text := default [] (m !! n).

(** f'{macro}.message("{message}");' *)
Definition message_call (macro message : text) : text :=
  macro ++ str ".message(" ++ [dquote] ++ message ++ [dquote] ++ str ");".

Definition replacer (m : groups) : text :=
  let level := group m 1 in
  let message := group m 2 in
  let macro := convert_log_level level in
  if contains (str "[FAILED]") message || contains (str "[ERROR]") message
  then message_call macro message
  else if contains (str "[OK]") message || contains (str "[INFO]") message
  then message_call macro message
  else message_call macro message.

(** The comment that flags a line for manual review. *)
Definition review_marker : text :=
  str " // TODO: Convert to structured logging".

Definition convert_logger_log (line : text) : text :=
  let new_line := re_sub pattern replacer line in
  if contains legacy_name line && bool_decide (new_line = line)
  then line ++ review_marker
  else new_line.


(** *** Files *)

(** Reading in text mode translates CR LF and a lone CR to ['\n']. *)
Fixpoint universal_newlines (s : text) : text :=
  match s with
  | [] => []
  | c :: s' =>
      if c =? cr then
        match s' with
        | d :: _ =>
            if d =? newline then universal_newlines s'
            else newline :: universal_newlines s'
        | [] => [newline]
        end
      else c :: universal_newlines s'
  end.

(** Cutting a text after every ['\n']; [cur] is the line being read. *)
Fixpoint split_lines (cur s : text) : list text :=
  match s with
  | [] => match cur with [] => [] | _ => [cur] end
  | c :: s' =>
      if c =? newline then (cur ++ [c]) :: split_lines [] s'
      else split_lines (cur ++ [c]) s'
  end.

(** [f.readlines()]: the lines, each with its ['\n']. *)
Definition readlines (content : text) : list text :=
  split_lines [] (universal_newlines content).

(** [open(filepath, 'r')] followed by [readlines]: the path is
    resolved, the file must be there, be a regular file and be
    readable, and its bytes must decode. *)
Definition open_read (fs : gmap text node) (filepath : text) : exn + list text :=
  match resolve filepath with
  | inl e => inl e
  | inr name =>
      match fs !! name with
      | None => inl (FileNotFoundError filepath)
      | Some Directory => inl (IsADirectoryError filepath)
      | Some (File content readable _) =>
          if readable then inr (readlines content)
          else inl (PermissionError filepath)
      | Some (Undecodable e readable _) =>
          if readable then inl e else inl (PermissionError filepath)
      end
  end.

(** [open(filepath, 'w')] followed by [writelines], where the line
    separator is ['\n']: the file the path leads to holds the lines one
    after the other, under whatever path it is looked at afterwards. *)
Definition open_write (fs : gmap text node) (filepath : text)
    (lines : list text) : exn + gmap text node :=
  match resolve filepath with
  | inl e => inl e
  | inr name =>
      match fs !! name with
      | Some Directory => inl (IsADirectoryError filepath)
      | Some (File _ readable writable)
      | Some (Undecodable _ readable writable) =>
          if writable then inr (<[name := File (concat lines) readable true]> fs)
          else inl (PermissionError filepath)
      | None => inr (<[name := File (concat lines) true true]> fs)
      end
  end.

Definition print (l : text) (w : world) : world :=
  World (files w) (stdout w ++ [l]).

Definition process_file (filepath : text) (w : world) : exn + world :=
  match open_read (files w) filepath with
  | inl e => inl e
  | inr lines =>
      let converted_lines := map convert_logger_log lines in
      match open_write (files w) filepath converted_lines with
      | inl e => inl e
      | inr fs' => inr (print (str "Processed: " ++ filepath) (World fs' (stdout w)))
      end
  end.

(** One round of the loop of the script: [try] ... [except Exception]. *)
Definition process_or_report (w : world) (filepath : text) : world :=
  match process_file filepath w with
  | inr w' => w'
  | inl e =>
      print (str "Error processing " ++ filepath ++ str ": " ++ exn_str e) w
  end.

Definition usage : text :=
  str "Usage: python convert_logging.py <file1> [file2] ...".

(** The script run with [sys.argv = argv]: the world it leaves and its
    exit code. *)
Definition main (argv : list text) (w : world) : world * Z :=
  if bool_decide (length argv < 2)%nat then (print usage w, 1%Z)
  else (foldl process_or_report w (drop 1 argv), 0%Z).


(** ** What the matcher is measured against *)

(** The language of a regular expression, with the groups it captures:
    [denotes r m g g'] says that [r] matches exactly the text [m],
    taking the groups [g] to [g']. *)
Fixpoint denotes (r : regex) (m : text) (g g' : groups) : Prop :=
  match r with
  | Lit l => m = l ∧ g' = g
  | Star k => forallb (in_class k) m = true ∧ g' = g
  | Plus k => m ≠ [] ∧ forallb (in_class k) m = true ∧ g' = g
  | Cat r1 r2 =>
      ∃ m1 m2 g1, m = m1 ++ m2 ∧ denotes r1 m1 g g1 ∧ denotes r2 m2 g1 g'
  | Group n r1 => ∃ g1, denotes r1 m g g1 ∧ g' = <[n := m]> g1
  | Opt r1 => (m = [] ∧ g' = g) ∨ denotes r1 m g g'
  end.

(** The white space around [, __FILE__, __LINE__], when it is there. *)
Record location : Type := Location {
  ws_file_comma : text;
  ws_file : text;
  ws_line_comma : text;
  ws_line : text
}.

(** A call of the shape [pattern] describes, by its parts. *)
Record call : Type := Call {
  ws_open : text;                (* between the name and the parenthesis *)
  ws_level : text;               (* before the level *)
  level_name : text;             (* the level, after LogLevel:: *)
  ws_comma : text;               (* before the comma *)
  ws_message : text;             (* before the message *)
  message : text;                (* the message, without its quotes *)
  call_location : option location;
  ws_close : text                (* before the closing parenthesis *)
}.

Definition location_text (l : option location) : text :=
  match l with
  | None => []
  | Some l =>
      ws_file_comma l ++ str "," ++ ws_file l ++ str "__FILE__"
      ++ ws_line_comma l ++ str "," ++ ws_line l ++ str "__LINE__"
  end.

Definition call_level (c : call) : text := str "LogLevel::" ++ level_name c.

Definition call_text (c : call) : text :=
  legacy_name ++ ws_open c ++ str "(" ++ ws_level c ++ call_level c
  ++ ws_comma c ++ str "," ++ ws_message c
  ++ [dquote] ++ message c ++ [dquote]
  ++ location_text (call_location c) ++ ws_close c ++ str ");".

Definition location_ok (l : option location) : bool :=
  match l with
  | None => true
  | Some l =>
      forallb is_space (ws_file_comma l) && forallb is_space (ws_file l)
      && forallb is_space (ws_line_comma l) && forallb is_space (ws_line l)
  end.

Definition nonempty (s : text) : bool :=
  match s with [] => false | _ => true end.

(** The parts are what the pattern allows: white space where it has
    \s, word characters and at least one in the level, no double quote
    in the message. *)
Definition call_ok (c : call) : bool :=
  forallb is_space (ws_open c) && forallb is_space (ws_level c)
  && nonempty (level_name c) && forallb is_word (level_name c)
  && forallb is_space (ws_comma c) && forallb is_space (ws_message c)
  && forallb (in_class (CNot dquote)) (message c)
  && location_ok (call_location c) && forallb is_space (ws_close c).

(** The groups of a match of the call. *)
Definition call_groups (c : call) : groups :=
  <[2%nat := message c]> (<[1%nat := call_level c]> ∅).

(** What the call is to become: the macro of its level, and the message. *)
Definition replacement (c : call) : text :=
  message_call (convert_log_level (call_level c)) (message c).

(** The rewriting of a line, told without the matcher: going from left
    to right, a call of the shape is replaced, and a character at which
    no such call starts is kept. *)
Inductive rewrites : text → text → Prop :=
  | rewrites_nil : rewrites [] []
  | rewrites_call c rest out :
      call_ok c = true →
      rewrites rest out →
      rewrites (call_text c ++ rest) (replacement c ++ out)
  | rewrites_char a rest out :
      (∀ c rest', call_ok c = true → a :: rest ≠ call_text c ++ rest') →
      rewrites rest out →
      rewrites (a :: rest) (a :: out).

(** A line made of calls, each after some text, and a last text. *)
Fixpoint interleave (f : call → text) (segs : list (text * call))
    (last : text) : text :=
  match segs with
  | [] => last
  | (t, c) :: segs' => t ++ f c ++ interleave f segs' last
  end.

(** Where [p] occurs in [s], as offsets from position [i]. *)
Fixpoint occurrences (p s : text) (i : nat) : list nat :=
  (if starts_with p s then [i] else []) ++
  match s with
  | [] => []
  | _ :: s' => occurrences p s' (S i)
  end.

(** The beginning of a call, up to the opening quote of its message. *)
Definition call_head (c : call) : text :=
  legacy_name ++ ws_open c ++ str "(" ++ ws_level c ++ call_level c
  ++ ws_comma c ++ str "," ++ ws_message c ++ [dquote].

Definition head_ok (c : call) : bool :=
  forallb is_space (ws_open c) && forallb is_space (ws_level c)
  && nonempty (level_name c) && forallb is_word (level_name c)
  && forallb is_space (ws_comma c) && forallb is_space (ws_message c).

(** [stops k x]: a run of class [k] cannot go on into [x]. *)
Definition stops (k : cclass) (x : text) : bool :=
  match x with
  | [] => true
  | c :: _ => negb (in_class k c)
  end.

(** The five levels the mapper knows, and the five macros. *)
Definition level_tokens : list text :=
  [ str "LogLevel::DEBUG"; str "LogLevel::INFO"; str "LogLevel::WARNING";
    str "LogLevel::ERROR_LEVEL"; str "LogLevel::CRITICAL" ].

Definition macro_names : list text :=
  [ str "SLOG_DEBUG()"; str "SLOG_INFO()"; str "SLOG_WARNING()";
    str "SLOG_ERROR()"; str "SLOG_CRITICAL()" ].

(** The replacer as the specification words it: the macro, and the
    message handed to its accessor, whatever the message says. *)
Definition replacer_uniform (m : groups) : text :=
  convert_log_level (group m 1) ++ str ".message(" ++ [dquote]
  ++ group m 2 ++ [dquote] ++ str ");".

(** A line with a call that matches and, after it, a use of the call
    name that does not. *)
Definition matched_and_unmatched : text :=
  str "Logger::log(LogLevel::INFO, " ++ [dquote] ++ str "a" ++ [dquote]
  ++ str "); Logger::log(x);".

(** A stretch of a line: text in which the call name does not occur,
    and after it a well-formed call. *)
Definition segment_ok (seg : text * call) : bool :=
  negb (contains legacy_name seg.1) && call_ok seg.2.

(** The two calls of the examples of the specification. *)
Definition disk_full_call : call :=
  Call [] [] (str "ERROR_LEVEL") [] (str " ") (str "disk full") None [].

Definition started_call : call :=
  Call [] [] (str "INFO") [] (str " ") (str "[OK] started")
    (Some (Location [] (str " ") [] (str " "))) [].

(** A line with one call whose message has a double quote in it: the
    text [pre], the call up to its message's opening quote, the message
    up to its first double quote ([message c]), that quote, and what
    comes after it. *)
Definition embedded_quote_line (pre : text) (c : call) (after : text) : text :=
  pre ++ call_head c ++ message c ++ [dquote] ++ after.

(** A file whose first line uses the call name in a way the pattern does
    not match, and the same file as [process_file] leaves it. *)
Definition flagged_file : text :=
  str "Logger::log(level, msg);" ++ [newline] ++ str "next();" ++ [newline].

Definition flagged_file_processed : text :=
  str "Logger::log(level, msg);" ++ [newline]
  ++ str " // TODO: Convert to structured logging"
  ++ str "next();" ++ [newline].

(** A call whose message holds an escaped double quote, up to that
    quote. *)
Definition say_hi_call : call :=
  Call [] [] (str "INFO") [] (str " ") (str "say \") None [].

(** ** Further shapes of lines *)

(** A segment whose call has a message free of the call name. *)
Definition clean_segment (seg : text * call) : bool :=
  segment_ok seg && negb (contains legacy_name (message seg.2)).

(** The text of a call up to its closing parenthesis, which it leaves
    out. *)
Definition call_open (c : call) : text :=
  call_head c ++ message c ++ [dquote]
  ++ location_text (call_location c) ++ ws_close c.

(** A line with one call written with white space [ws] between the
    closing parenthesis and the semicolon. *)
Definition spaced_semicolon_line (pre : text) (c : call) (ws post : text) : text :=
  pre ++ call_open c ++ str ")" ++ ws ++ str ";" ++ post.

(** A call with a level the table does not list. *)
Definition trace_call : call :=
  Call [] [] (str "TRACE") [] (str " ") (str "entering") None [].

(** The line the script prints for a path: that it was processed, or
    that it was not, with the cause. *)
Definition report_line (filepath l : text) : Prop :=
  l = str "Processed: " ++ filepath
  ∨ ∃ e, l = str "Error processing " ++ filepath ++ str ": " ++ exn_str e.

(** ** The matches of a line *)

(** No well-formed call starts at a character of [t], in [t] followed
    by [rest]. *)
Fixpoint no_call_starts (t rest : text) : Prop :=
  match t with
  | [] => True
  | a :: t' =>
      (∀ c r, call_ok c = true → a :: t' ++ rest ≠ call_text c ++ r)
      ∧ no_call_starts t' rest
  end.

(** [scan segs last]: the line [interleave call_text segs last] read
    from left to right has the calls of [segs] as its matches, one
    after the other, and no other: each is well formed, and no call
    starts in the text before it, or in [last]. *)
Fixpoint scan (segs : list (text * call)) (last : text) : Prop :=
  match segs with
  | [] => no_call_starts last []
  | (t, c) :: segs' =>
      no_call_starts t (call_text c ++ interleave call_text segs' last)
      ∧ call_ok c = true
      ∧ scan segs' last
  end.

(** What a call is rewritten to, letter by letter. *)
Definition rewritten_call (c : call) : text :=
  convert_log_level (call_level c) ++ str ".message(" ++ [dquote]
  ++ message c ++ [dquote] ++ str ");".

(** Where in [s] the pattern matches, counting from [i]: every position
    at which a match starts, those inside another match too. *)
Fixpoint match_positions (s : text) (i : nat) : list nat :=
  match match_at pattern s with
  | Some _ => [i]
  | None => []
  end ++
  match s with
  | [] => []
  | _ :: s' => match_positions s' (S i)
  end.

(** Two calls, and between them a use of the call name that is no
    call. *)
Definition info_a_call : call :=
  Call [] [] (str "INFO") [] (str " ") (str "a") None [].

Definition debug_b_call : call :=
  Call [] [] (str "DEBUG") [] (str " ") (str "b") None [].

Definition unmatched_between : text := str " Logger::log(x); ".

(** What follows the first embedded quote in a call with an escaped
    message, when a comment that names the call comes after the call. *)
Definition say_hi_after_comment : text :=
  str "hi\" ++ [dquote] ++ [dquote] ++ str "); // see Logger::log".

(** Files to run the script on: one with a legacy call, one without. *)
Definition example_files : gmap text node :=
  {[ str "a.cpp" :=
       File (str "Logger::log(LogLevel::INFO, " ++ [dquote] ++ str "a"
             ++ [dquote] ++ str ");" ++ [newline]) true true;
     str "c.cpp" := File (str "int x;" ++ [newline]) true true ]}.

Definition example_files_processed : gmap text node :=
  {[ str "a.cpp" :=
       File (str "SLOG_INFO().message(" ++ [dquote] ++ str "a"
             ++ [dquote] ++ str ");" ++ [newline]) true true;
     str "c.cpp" := File (str "int x;" ++ [newline]) true true ]}.
(** * Properties *)

(** ** Text *)

Lemma strip_prefix_Some p s s' : strip_prefix p s = Some s' ↔ s = p ++ s'.
Proof.
  revert s. induction p as [|a p IH]; intros s; simpl.
  - split; [by intros [= ->] | by intros ->].
  - destruct s as [|b s]; [by split|].
    destruct (N.eqb_spec a b) as [->|Hne].
    + rewrite IH. split; [by intros -> | by intros [= ->]].
    + split; [done | intros [= ? ?]; congruence].
Qed.

Lemma strip_prefix_app p s : strip_prefix p (p ++ s) = Some s.
Proof. by apply strip_prefix_Some. Qed.

Lemma starts_with_true p s : starts_with p s = true ↔ ∃ s', s = p ++ s'.
Proof.
  unfold starts_with. destruct (strip_prefix p s) as [s'|] eqn:E.
  - apply strip_prefix_Some in E. split; [eauto | done].
  - split; [done | intros [s' ->]]. by rewrite strip_prefix_app in E.
Qed.

(** [contains] is the substring test. *)
Lemma contains_true p s : contains p s = true ↔ ∃ a b, s = a ++ p ++ b.
Proof.
  induction s as [|c s IH]; simpl.
  - rewrite orb_false_r, starts_with_true. split.
    + intros [s' ->]. by exists [], s'.
    + intros (a & b & E). symmetry in E.
      apply app_eq_nil in E as [-> E]. simpl in E. eauto.
  - rewrite orb_true_iff, starts_with_true, IH. split.
    + intros [[s' ->]|(a & b & ->)]; [by exists [], s' | by exists (c :: a), b].
    + intros (a & b & E). destruct a as [|c' a]; simpl in E.
      * left. eauto.
      * injection E as -> ->. right. eauto.
Qed.

Lemma contains_false_cons p c s :
  contains p (c :: s) = false → starts_with p (c :: s) = false ∧ contains p s = false.
Proof. simpl. by intros [? ?]%orb_false_elim. Qed.

Lemma contains_app_l p a b : contains p a = true → contains p (a ++ b) = true.
Proof.
  rewrite !contains_true. intros (x & y & ->). exists x, (y ++ b).
  by rewrite <- !app_assoc.
Qed.

Lemma contains_app_r p a b : contains p b = true → contains p (a ++ b) = true.
Proof.
  rewrite !contains_true. intros (x & y & ->). exists (a ++ x), y.
  by rewrite <- !app_assoc.
Qed.

(** ** Character classes *)

(** No white space is a word character. *)
Lemma space_not_word c : is_space c = true → is_word c = false.
Proof.
  unfold is_space, is_word. destruct (c <? 128).
  - unfold ascii_space, ascii_alnum, underscore. intros H.
    repeat (apply orb_true_iff in H as [H|H]);
      repeat (apply andb_true_iff in H as [? H]);
      repeat match goal with
             | H : (_ <=? _) = true |- _ => apply N.leb_le in H
             | H : (_ =? _) = true |- _ => apply N.eqb_eq in H
             end;
      repeat (apply orb_false_intro); rewrite ?andb_false_iff,
        ?N.leb_gt, ?N.eqb_neq; lia.
  - by destruct (unicode_kind c).
Qed.

(** A character of a class is none of the characters outside it. *)
Lemma class_neq k c d : in_class k c = true → in_class k d = false → c ≠ d.
Proof. intros Hc Hd ->. congruence. Qed.

(** ** The matcher finds the matches there are *)

Lemma star_sound {R} k s g (cont : text → groups → option R) res :
  star k s g cont = Some res →
  ∃ m s', s = m ++ s' ∧ forallb (in_class k) m = true ∧ cont s' g = Some res.
Proof.
  induction s as [|c s IH]; simpl.
  - intros H. by exists [], [].
  - destruct (in_class k c) eqn:Hc; [|intros H; by exists [], (c :: s)].
    destruct (star k s g cont) as [r|] eqn:E.
    + intros [= <-]. destruct (IH eq_refl) as (m & s' & -> & Hm & Hk).
      exists (c :: m), s'. simpl. by rewrite Hc, Hm.
    + intros H. by exists [], (c :: s).
Qed.

Lemma star_complete {R} k m rest g (cont : text → groups → option R) :
  forallb (in_class k) m = true →
  is_Some (cont rest g) →
  is_Some (star k (m ++ rest) g cont).
Proof.
  intros Hm Hk. induction m as [|c m IH]; simpl in *.
  - destruct rest as [|c s]; simpl; [done|].
    destruct (in_class k c); [|done]. by destruct (star k s g cont).
  - apply andb_true_iff in Hm as [-> Hm].
    destruct (IH Hm) as [r ->]. eauto.
Qed.

(** What [exec] returns comes from a match of [r] at the start of [s]. *)
Lemma exec_sound {R} r : ∀ s g (cont : text → groups → option R) res,
  exec r s g cont = Some res →
  ∃ m s' g', s = m ++ s' ∧ denotes r m g g' ∧ cont s' g' = Some res.
Proof.
  induction r as [l|k|k|r1 IH1 r2 IH2|n r1 IH1|r1 IH1]; intros s g cont res; simpl.
  - destruct (strip_prefix l s) as [s'|] eqn:E; [|done].
    apply strip_prefix_Some in E as ->. intros H. by exists l, s', g.
  - intros (m & s' & -> & Hm & Hk)%star_sound. by exists m, s', g.
  - destruct s as [|c s]; [done|]. destruct (in_class k c) eqn:Hc; [|done].
    intros (m & s' & -> & Hm & Hk)%star_sound.
    exists (c :: m), s', g. simpl. by rewrite Hc, Hm.
  - intros (m1 & s1 & g1 & -> & H1 & H)%IH1.
    apply IH2 in H as (m2 & s2 & g2 & -> & H2 & H).
    exists (m1 ++ m2), s2, g2. rewrite <- app_assoc. split_and!; [done| |done].
    by exists m1, m2, g1.
  - intros (m & s' & g1 & -> & H1 & H)%IH1.
    rewrite length_app, Nat.add_sub, take_app_length in H.
    exists m, s', (<[n := m]> g1). split_and!; [done| |done]. by exists g1.
  - destruct (exec r1 s g cont) as [x|] eqn:E.
    + intros [= <-]. apply IH1 in E as (m & s' & g' & -> & H1 & H).
      exists m, s', g'. split_and!; [done| |done]. by right.
    + intros H. exists [], s, g. split_and!; [done| |done]. by left.
Qed.

(** Where [r] matches and the continuation accepts what follows,
    [exec] succeeds. *)
Lemma exec_complete {R} r : ∀ m rest g g' (cont : text → groups → option R),
  denotes r m g g' →
  is_Some (cont rest g') →
  is_Some (exec r (m ++ rest) g cont).
Proof.
  induction r as [l|k|k|r1 IH1 r2 IH2|n r1 IH1|r1 IH1];
    intros m rest g g' cont; simpl.
  - intros [-> ->] H. by rewrite strip_prefix_app.
  - intros [Hm ->] H. by apply star_complete.
  - intros (Hne & Hm & ->) H. destruct m as [|c m]; [done|]. simpl in *.
    apply andb_true_iff in Hm as [-> Hm]. by apply star_complete.
  - intros (m1 & m2 & g1 & -> & H1 & H2) H. rewrite <- app_assoc.
    eapply IH1; [done|]. by eapply IH2.
  - intros (g1 & H1 & ->) H. eapply IH1; [done|].
    by rewrite length_app, Nat.add_sub, take_app_length.
  - intros [[-> ->]|H1] H.
    + simpl. by destruct (exec r1 rest g cont).
    + destruct (IH1 _ _ _ _ _ H1 H) as [x ->]. eauto.
Qed.

Lemma match_at_sound r s rest g :
  match_at r s = Some (rest, g) → ∃ m, s = m ++ rest ∧ denotes r m ∅ g.
Proof.
  unfold match_at. intros (m & s' & g' & -> & H & [= -> ->])%exec_sound. eauto.
Qed.

Lemma match_at_complete r m rest g :
  denotes r m ∅ g → is_Some (match_at r (m ++ rest)).
Proof. intros H. unfold match_at. by eapply exec_complete. Qed.

(** ** The pattern and the shape of a call *)

(** A maximal run of a class is cut off in one way only. *)
Lemma span_unique k a b x y :
  forallb (in_class k) a = true → forallb (in_class k) b = true →
  stops k x = true → stops k y = true →
  a ++ x = b ++ y → a = b ∧ x = y.
Proof.
  revert b. induction a as [|c a IH]; intros [|d b]; simpl; intros Ha Hb Hx Hy E.
  - done.
  - subst x. simpl in Hx. apply andb_true_iff in Hb as [Hd _].
    by rewrite Hd in Hx.
  - subst y. simpl in Hy. apply andb_true_iff in Ha as [Hc _].
    by rewrite Hc in Hy.
  - injection E as -> E. apply andb_true_iff in Ha as [_ Ha].
    apply andb_true_iff in Hb as [_ Hb].
    by destruct (IH b Ha Hb Hx Hy E) as [-> ->].
Qed.

Lemma stops_word_space ws x :
  forallb is_space ws = true → stops CWord x = true →
  stops CWord (ws ++ x) = true.
Proof.
  destruct ws as [|c ws]; [done|]. simpl. intros [Hc _]%andb_true_iff _.
  by rewrite (space_not_word c Hc).
Qed.

Lemma call_ok_parts c :
  call_ok c = true →
  forallb is_space (ws_open c) = true ∧ forallb is_space (ws_level c) = true
  ∧ level_name c ≠ [] ∧ forallb is_word (level_name c) = true
  ∧ forallb is_space (ws_comma c) = true
  ∧ forallb is_space (ws_message c) = true
  ∧ forallb (in_class (CNot dquote)) (message c) = true
  ∧ location_ok (call_location c) = true
  ∧ forallb is_space (ws_close c) = true.
Proof.
  unfold call_ok. rewrite !andb_true_iff. intros H. destruct_and!.
  split_and!; try done. by destruct (level_name c).
Qed.

Lemma location_ok_parts l :
  location_ok (Some l) = true →
  forallb is_space (ws_file_comma l) = true ∧ forallb is_space (ws_file l) = true
  ∧ forallb is_space (ws_line_comma l) = true
  ∧ forallb is_space (ws_line l) = true.
Proof. simpl. rewrite !andb_true_iff. intros H. by destruct_and!. Qed.

(** Building a member of the language of a regular expression. *)
Lemma denotes_lit l g : denotes (Lit l) l g g.
Proof. done. Qed.

Lemma denotes_star k m g :
  forallb (in_class k) m = true → denotes (Star k) m g g.
Proof. done. Qed.

Lemma denotes_plus k m g :
  m ≠ [] → forallb (in_class k) m = true → denotes (Plus k) m g g.
Proof. done. Qed.

Lemma denotes_cat r1 r2 m1 m2 g g1 g' :
  denotes r1 m1 g g1 → denotes r2 m2 g1 g' → denotes (r1 · r2) (m1 ++ m2) g g'.
Proof. intros H1 H2. by exists m1, m2, g1. Qed.

Lemma denotes_group n r m g g1 :
  denotes r m g g1 → denotes (Group n r) m g (<[n := m]> g1).
Proof. intros H. by exists g1. Qed.

Lemma denotes_opt_none r g : denotes (Opt r) [] g g.
Proof. by left. Qed.

Lemma denotes_opt_some r m g g' : denotes r m g g' → denotes (Opt r) m g g'.
Proof. by right. Qed.

Ltac den :=
  repeat first
    [ apply denotes_lit
    | apply denotes_star; assumption
    | apply denotes_plus; assumption
    | apply denotes_group
    | eapply denotes_cat ].

(** The texts of the pattern's language are the well-formed calls, and
    the groups are the level and the message. *)
Lemma denotes_pattern_call m g :
  denotes pattern m ∅ g ↔
  ∃ c, call_ok c = true ∧ m = call_text c ∧ g = call_groups c.
Proof.
  split.
  - unfold pattern, tail_re, location_re. cbn [denotes]. intros H.
    repeat match goal with
           | H : ∃ _, _ |- _ => destruct H as [? H]
           | H : _ ∧ _ |- _ => destruct H as [? ?]
           end; subst.
    match goal with H : _ ∨ _ |- _ => destruct H as [H|H] end;
      repeat match goal with
             | H : ∃ _, _ |- _ => destruct H as [? H]
             | H : _ ∧ _ |- _ => destruct H as [? ?]
             end; subst.
    + eexists (Call _ _ _ _ _ _ None _). split_and!; [|reflexivity|reflexivity].
      unfold call_ok; cbn. rewrite !andb_true_iff. split_and!; try done.
      by match goal with H : ?x ≠ [] |- nonempty ?x = true => destruct x end.
    + eexists (Call _ _ _ _ _ _ (Some (Location _ _ _ _)) _).
      split_and!; [|reflexivity|reflexivity].
      unfold call_ok; cbn. rewrite !andb_true_iff. split_and!; try done.
      by match goal with H : ?x ≠ [] |- nonempty ?x = true => destruct x end.
  - intros (c & Hc & -> & ->). apply call_ok_parts in Hc. destruct_and!.
    unfold pattern, call_text, call_groups, call_level, tail_re. den.
    destruct (call_location c) as [l|]; [|apply denotes_opt_none].
    match goal with H : location_ok _ = true |- _ =>
      apply location_ok_parts in H end.
    destruct_and!. apply denotes_opt_some. unfold location_re. den.
Qed.

(** Taking one part off both sides of an equation between two texts
    laid out as calls: a literal, or a maximal run of a class. *)
Ltac stop_here :=
  first [ reflexivity | apply stops_word_space; [assumption | reflexivity] ].

Ltac peel E :=
  first
    [ apply app_inv_head in E
    | apply (span_unique CSpace) in E as [-> E];
        [|assumption|assumption|stop_here|stop_here]
    | apply (span_unique CWord) in E as [-> E];
        [|assumption|assumption|stop_here|stop_here]
    | apply (span_unique (CNot dquote)) in E as [-> E];
        [|assumption|assumption|stop_here|stop_here] ].

Ltac call_parts :=
  cbn [ws_open ws_level level_name ws_comma ws_message message call_location
       ws_close location_text ws_file_comma ws_file ws_line_comma ws_line] in *.

(** A text starts with one well-formed call at most: the pattern is
    unambiguous. *)
Lemma call_text_unique c1 c2 r1 r2 :
  call_ok c1 = true → call_ok c2 = true →
  call_text c1 ++ r1 = call_text c2 ++ r2 → c1 = c2 ∧ r1 = r2.
Proof.
  intros H1%call_ok_parts H2%call_ok_parts E.
  destruct c1 as [a1 b1 w1 d1 e1 m1 l1 f1], c2 as [a2 b2 w2 d2 e2 m2 l2 f2].
  unfold call_text, call_level in E. call_parts. destruct_and!.
  rewrite <- !app_assoc in E.
  do 12 peel E.
  destruct l1 as [[p1 q1 s1 t1]|], l2 as [[p2 q2 s2 t2]|]; call_parts;
    rewrite <- ?app_assoc, ?app_nil_l in E;
    repeat match goal with
           | H : location_ok (Some _) = true |- _ =>
               apply location_ok_parts in H; call_parts; destruct_and!
           end.
  - do 10 peel E. by subst.
  - peel E. discriminate E.
  - peel E. discriminate E.
  - do 2 peel E. by subst.
Qed.

(** ** What the pattern matches *)

(** At a well-formed call the pattern matches that call, whole, and
    captures its level and its message. *)
Lemma match_at_call c rest :
  call_ok c = true →
  match_at pattern (call_text c ++ rest) = Some (rest, call_groups c).
Proof.
  intros Hc.
  assert (denotes pattern (call_text c) ∅ (call_groups c)) as Hd.
  { apply denotes_pattern_call. eauto. }
  destruct (match_at_complete pattern _ rest _ Hd) as [[rest' g] E].
  rewrite E. apply match_at_sound in E as (m & E & Hm).
  apply denotes_pattern_call in Hm as (c' & Hc' & -> & ->).
  by destruct (call_text_unique c c' rest rest' Hc Hc' E) as [-> ->].
Qed.

(** The pattern matches nothing else. *)
Lemma match_at_pattern_inv s rest g :
  match_at pattern s = Some (rest, g) →
  ∃ c, call_ok c = true ∧ s = call_text c ++ rest ∧ g = call_groups c.
Proof.
  intros (m & -> & Hm)%match_at_sound.
  apply denotes_pattern_call in Hm as (c & Hc & -> & ->). eauto.
Qed.

Lemma match_at_pattern_None s :
  match_at pattern s = None ↔
  ∀ c rest, call_ok c = true → s ≠ call_text c ++ rest.
Proof.
  split.
  - intros E c rest Hc ->. by rewrite match_at_call in E.
  - intros H. destruct (match_at pattern s) as [[rest g]|] eqn:E; [|done].
    apply match_at_pattern_inv in E as (c & Hc & -> & _). by destruct (H c rest).
Qed.

(** A match begins with the call name. *)
Lemma match_at_pattern_name s rest g :
  match_at pattern s = Some (rest, g) → starts_with legacy_name s = true.
Proof.
  intros (c & _ & -> & _)%match_at_pattern_inv. apply starts_with_true.
  unfold call_text. rewrite <- app_assoc. eauto.
Qed.

Lemma match_at_pattern_shorter s rest g :
  match_at pattern s = Some (rest, g) → (length rest < length s)%nat.
Proof.
  intros (c & _ & -> & _)%match_at_pattern_inv.
  unfold call_text. rewrite !length_app. simpl. lia.
Qed.

(** ** [re.sub] *)

Section Sub.

Variable repl : groups → text.

(** [length s] rounds are as good as any larger number. *)
Lemma sub_loop_fuel n : ∀ m s,
  (length s ≤ n)%nat → (length s ≤ m)%nat →
  sub_loop pattern repl n s = sub_loop pattern repl m s.
Proof.
  induction n as [|n IH]; intros m s Hn Hm.
  - destruct s; [|simpl in Hn; lia]. by destruct m.
  - destruct s as [|c s]; [by destruct m|].
    destruct m as [|m]; [simpl in Hm; lia|]. simpl in Hn, Hm.
    cbn [sub_loop]. destruct (match_at pattern (c :: s)) as [[rest g]|] eqn:E.
    + apply match_at_pattern_shorter in E. simpl in E.
      f_equal. apply IH; lia.
    + f_equal. apply IH; lia.
Qed.

Lemma re_sub_nil : re_sub pattern repl [] = [].
Proof. done. Qed.

Lemma re_sub_match s rest g :
  match_at pattern s = Some (rest, g) →
  re_sub pattern repl s = repl g ++ re_sub pattern repl rest.
Proof.
  intros E. pose proof (match_at_pattern_shorter _ _ _ E) as Hlt.
  unfold re_sub. destruct s as [|c s]; [simpl in Hlt; lia|].
  cbn [length sub_loop]. rewrite E. f_equal.
  simpl in Hlt. apply sub_loop_fuel; lia.
Qed.

Lemma re_sub_skip c s :
  match_at pattern (c :: s) = None →
  re_sub pattern repl (c :: s) = c :: re_sub pattern repl s.
Proof. intros E. unfold re_sub. cbn [length sub_loop]. by rewrite E. Qed.

(** Without a match the text is returned as it is. *)
Lemma re_sub_no_match s :
  has_match pattern s = false → re_sub pattern repl s = s.
Proof.
  induction s as [|c s IH]; [done|]. cbn [has_match].
  destruct (match_at pattern (c :: s)) eqn:E; [done|].
  intros H. rewrite re_sub_skip by done. by rewrite IH.
Qed.

End Sub.

(** [re.search] finds the well-formed calls of the text. *)
Lemma has_match_true s :
  has_match pattern s = true ↔
  ∃ a c b, call_ok c = true ∧ s = a ++ call_text c ++ b.
Proof.
  induction s as [|x s IH]; cbn [has_match].
  - destruct (match_at pattern []) as [[rest g]|] eqn:E.
    + apply match_at_pattern_shorter in E. simpl in E. lia.
    + split; [done|]. intros (a & c & b & Hc & E').
      symmetry in E'. apply app_eq_nil in E' as [_ E'].
      by rewrite <- E', match_at_call in E.
  - destruct (match_at pattern (x :: s)) as [[rest g]|] eqn:E.
    + split; [intros _|done].
      apply match_at_pattern_inv in E as (c & Hc & -> & _). by exists [], c, rest.
    + rewrite IH. split.
      * intros (a & c & b & Hc & ->). by exists (x :: a), c, b.
      * intros (a & c & b & Hc & E'). destruct a as [|y a].
        -- by rewrite E', app_nil_l, match_at_call in E.
        -- rewrite <- app_comm_cons in E'. injection E' as -> ->. eauto.
Qed.

Lemma has_match_contains s :
  has_match pattern s = true → contains legacy_name s = true.
Proof.
  intros (a & c & b & _ & ->)%has_match_true. apply contains_true.
  exists a. unfold call_text. rewrite <- !app_assoc. eauto.
Qed.

(** Membership in a list written out. *)
Ltac in_list :=
  repeat first [ by apply elem_of_cons; left | apply elem_of_cons; right ].

(** ** The level mapper *)

Lemma convert_log_level_other s :
  s ∉ level_tokens → convert_log_level s = str "SLOG_INFO()".
Proof.
  intros H. unfold convert_log_level, mapping.
  by rewrite (not_elem_of_list_to_map_1 _ s).
Qed.

(** Whatever the level, the result is one of the five macros. *)
Lemma convert_log_level_macro s : convert_log_level s ∈ macro_names.
Proof.
  destruct (decide (s ∈ level_tokens)) as [H|H].
  - unfold level_tokens in H. rewrite !elem_of_cons in H.
    destruct H as [->|[->|[->|[->|[->|H]]]]];
      [vm_compute; in_list..|by apply elem_of_nil in H].
  - rewrite convert_log_level_other by done. unfold macro_names. in_list.
Qed.

(** Every macro begins with the letter S. *)
Lemma convert_log_level_head s : ∃ t, convert_log_level s = 83 :: t.
Proof.
  pose proof (convert_log_level_macro s) as H.
  unfold macro_names in H. rewrite !elem_of_cons in H.
  destruct H as [->|[->|[->|[->|[->|H]]]]];
    [by eexists; vm_compute..|by apply elem_of_nil in H].
Qed.

(** ** The replacer *)

Lemma replacer_message_call m :
  replacer m = message_call (convert_log_level (group m 1)) (group m 2).
Proof.
  unfold replacer.
  destruct (contains (str "[FAILED]") _ || contains (str "[ERROR]") _); [done|].
  by destruct (contains (str "[OK]") _ || contains (str "[INFO]") _).
Qed.

Lemma group_call_level c : group (call_groups c) 1 = call_level c.
Proof.
  unfold group, call_groups.
  by rewrite lookup_insert_ne, lookup_insert_eq by done.
Qed.

Lemma group_call_message c : group (call_groups c) 2 = message c.
Proof. unfold group, call_groups. by rewrite lookup_insert_eq. Qed.

Lemma replacer_call c : replacer (call_groups c) = replacement c.
Proof.
  by rewrite replacer_message_call, group_call_level, group_call_message.
Qed.

Lemma replacer_head m : ∃ t, replacer m = 83 :: t.
Proof.
  rewrite replacer_message_call. unfold message_call.
  destruct (convert_log_level_head (group m 1)) as [t ->]. by eexists.
Qed.

Lemma legacy_name_chars :
  legacy_name = [76; 111; 103; 103; 101; 114; 58; 58; 108; 111; 103].
Proof. reflexivity. Qed.

Lemma call_text_head c : ∃ t, call_text c = 76 :: t.
Proof. unfold call_text. rewrite legacy_name_chars. by eexists. Qed.

(** ** The rewriting of a line *)

(** [re.sub] does what [rewrites] tells. *)
Lemma re_sub_rewrites s out :
  rewrites s out → re_sub pattern replacer s = out.
Proof.
  induction 1 as [|c rest out Hc _ IH|a rest out Hno _ IH].
  - done.
  - rewrite (re_sub_match _ _ rest (call_groups c)) by by apply match_at_call.
    by rewrite replacer_call, IH.
  - rewrite re_sub_skip by by apply match_at_pattern_None. by rewrite IH.
Qed.

(** Every line has its rewriting. *)
Lemma rewrites_re_sub s : rewrites s (re_sub pattern replacer s).
Proof.
  remember (length s) as n eqn:Hn. revert s Hn.
  induction n as [n IH] using lt_wf_ind. intros s ->.
  destruct s as [|a s]; [constructor|].
  destruct (match_at pattern (a :: s)) as [[rest g]|] eqn:E.
  - rewrite (re_sub_match _ _ _ _ E).
    pose proof (match_at_pattern_shorter _ _ _ E) as Hlt.
    apply match_at_pattern_inv in E as (c & Hc & -> & ->).
    rewrite replacer_call. constructor; [done|]. by eapply IH.
  - rewrite re_sub_skip by done. constructor.
    + by apply match_at_pattern_None.
    + eapply IH; [|done]. simpl. lia.
Qed.

(** A match changes the line, and not into the line with something
    after it: where the first call began, an S stands for the L. *)
Lemma re_sub_changes s t :
  has_match pattern s = true → re_sub pattern replacer s ≠ s ++ t.
Proof.
  induction s as [|a s IH]; cbn [has_match].
  - destruct (match_at pattern []) as [[rest g]|] eqn:E; [|done].
    apply match_at_pattern_shorter in E. simpl in E. lia.
  - destruct (match_at pattern (a :: s)) as [[rest g]|] eqn:E.
    + intros _. rewrite (re_sub_match _ _ _ _ E).
      apply match_at_pattern_inv in E as (c & _ & E & _).
      destruct (replacer_head g) as [t1 ->].
      destruct (call_text_head c) as [t2 E2]. rewrite E2 in E.
      injection E as -> _. simpl. intros [=].
    + intros H. rewrite re_sub_skip by done. simpl. intros [= E'].
      by apply IH in E'.
Qed.

Lemma re_sub_id_iff s :
  re_sub pattern replacer s = s ↔ has_match pattern s = false.
Proof.
  split; [|apply re_sub_no_match].
  intros E. destruct (has_match pattern s) eqn:H; [|done].
  apply (re_sub_changes s []) in H. by rewrite app_nil_r in H.
Qed.

(** ** The call rewriter *)

(** The three ways a line is treated. *)
Lemma convert_logger_log_cases line :
  convert_logger_log line =
    if has_match pattern line then re_sub pattern replacer line
    else if contains legacy_name line then line ++ review_marker
    else line.
Proof.
  unfold convert_logger_log. destruct (has_match pattern line) eqn:H.
  - rewrite bool_decide_eq_false_2, andb_false_r; [done|].
    by rewrite re_sub_id_iff, H.
  - rewrite re_sub_no_match by done. rewrite bool_decide_eq_true_2 by done.
    by rewrite andb_true_r.
Qed.

Lemma convert_logger_log_no_name line :
  contains legacy_name line = false → convert_logger_log line = line.
Proof.
  intros H. rewrite convert_logger_log_cases, H.
  destruct (has_match pattern line) eqn:E; [|done].
  apply has_match_contains in E. congruence.
Qed.

Lemma review_marker_nonempty : review_marker ≠ [].
Proof. done. Qed.

(** A line with the call name never comes back as it was. *)
Lemma convert_logger_log_name line :
  contains legacy_name line = true → convert_logger_log line ≠ line.
Proof.
  intros H. rewrite convert_logger_log_cases, H.
  destruct (has_match pattern line) eqn:E.
  - rewrite <- (app_nil_r line) at 2. by apply re_sub_changes.
  - intros E'. rewrite <- (app_nil_r line) in E' at 2.
    by apply app_inv_head in E'.
Qed.

(** ** Text between the calls *)

Lemma starts_with_app_long p : ∀ s y,
  (length p ≤ length s)%nat → starts_with p (s ++ y) = starts_with p s.
Proof.
  unfold starts_with. induction p as [|a p IH]; intros s y Hlen; [done|].
  destruct s as [|b s]; [simpl in Hlen; lia|]. simpl in *.
  destruct (a =? b); [|done]. apply IH. lia.
Qed.

(** The call name does not overlap itself: it cannot start in the last
    ten characters before an occurrence of it. *)
Lemma name_not_across t x :
  t ≠ [] → (length t < 11)%nat →
  starts_with legacy_name (t ++ legacy_name ++ x) = false.
Proof.
  intros Hne Hlen. rewrite legacy_name_chars. unfold starts_with.
  do 11 (destruct t as [|? t];
    [try done; cbn [strip_prefix app];
     repeat match goal with
            | |- context [N.eqb ?a ?b] =>
                destruct (N.eqb_spec a b); [try done|done];
                cbn [strip_prefix app]
            end|]).
  simpl in Hlen. lia.
Qed.

Lemma contains_false_starts p s :
  contains p s = false → starts_with p s = false.
Proof. destruct s; simpl; by intros [? ?]%orb_false_elim. Qed.

Lemma call_text_name c : ∃ x, call_text c = legacy_name ++ x.
Proof. unfold call_text. eauto. Qed.

(** Text without the call name is copied up to the next occurrence of
    the name. *)
Lemma re_sub_gap repl t x :
  contains legacy_name t = false →
  re_sub pattern repl (t ++ legacy_name ++ x) =
  t ++ re_sub pattern repl (legacy_name ++ x).
Proof.
  induction t as [|a t IH]; [done|]. intros H.
  pose proof (contains_false_starts _ _ H) as Hs.
  apply contains_false_cons in H as [_ H].
  rewrite <- !app_comm_cons, re_sub_skip; [by rewrite IH|].
  destruct (match_at pattern _) as [[rest g]|] eqn:E; [|done].
  apply match_at_pattern_name in E. rewrite app_comm_cons in E.
  destruct (decide (length (a :: t) < 11)%nat) as [Hlt|Hge].
  - by rewrite name_not_across in E.
  - rewrite starts_with_app_long in E by (simpl in *; lia). congruence.
Qed.

Lemma re_sub_interleave segs last :
  forallb segment_ok segs = true →
  contains legacy_name last = false →
  re_sub pattern replacer (interleave call_text segs last) =
  interleave replacement segs last.
Proof.
  intros Hsegs Hlast.
  induction segs as [|[t c] segs IH]; cbn [interleave forallb] in *.
  - apply re_sub_no_match. destruct (has_match pattern last) eqn:E; [|done].
    apply has_match_contains in E. congruence.
  - apply andb_true_iff in Hsegs as [[Ht Hc]%andb_true_iff Hsegs].
    apply negb_true_iff in Ht. cbn [fst snd] in Ht, Hc.
    destruct (call_text_name c) as [x Ex]. rewrite Ex, <- app_assoc.
    rewrite re_sub_gap by done. rewrite app_assoc, <- Ex.
    rewrite (re_sub_match _ _ _ _ (match_at_call c _ Hc)).
    by rewrite replacer_call, IH.
Qed.

(** ** A double quote inside the message *)

Lemma denotes_tail l ws g :
  location_ok l = true → forallb is_space ws = true →
  denotes tail_re (location_text l ++ ws ++ str ");") g g.
Proof.
  intros Hl Hws. unfold tail_re. den.
  destruct l as [l|]; [|apply denotes_opt_none].
  apply location_ok_parts in Hl. destruct_and!.
  apply denotes_opt_some. unfold location_re. cbn [location_text]. den.
Qed.

(** Where the message stops at a double quote after which the call does
    not end, the pattern does not match. *)
Lemma match_at_embedded_quote c after :
  head_ok c = true →
  forallb (in_class (CNot dquote)) (message c) = true →
  match_at tail_re after = None →
  match_at pattern (call_head c ++ message c ++ [dquote] ++ after) = None.
Proof.
  intros Hc Hm Hafter. apply match_at_pattern_None. intros c' rest Hc' E.
  unfold head_ok in Hc. rewrite !andb_true_iff in Hc.
  apply call_ok_parts in Hc'. destruct_and!.
  assert (level_name c ≠ []) by by destruct (level_name c).
  destruct c as [a1 b1 w1 d1 e1 m1 l1 f1], c' as [a2 b2 w2 d2 e2 m2 l2 f2].
  unfold call_head, call_text, call_level in E. call_parts.
  rewrite <- !app_assoc in E. do 12 peel E.
  assert (is_Some (match_at tail_re after)) as [? ?]; [|congruence].
  rewrite E, !app_assoc, <- (app_assoc _ f2).
  eapply match_at_complete. by apply denotes_tail.
Qed.

Lemma occurrences_here p a b i :
  starts_with p b = true → (i + length a)%nat ∈ occurrences p (a ++ b) i.
Proof.
  intros Hb. revert i. induction a as [|x a IH]; intros i.
  - rewrite Nat.add_0_r. destruct b; simpl; rewrite Hb; in_list.
  - simpl. apply elem_of_app. right.
    replace (i + S (length a))%nat with (S i + length a)%nat by lia. apply IH.
Qed.

Lemma has_match_false s :
  (∀ a b, s = a ++ b → match_at pattern b = None) →
  has_match pattern s = false.
Proof.
  induction s as [|x s IH]; intros H; cbn [has_match].
  - by rewrite (H [] []).
  - rewrite (H [] (x :: s)) by done. apply IH. intros a b ->.
    by apply (H (x :: a) b).
Qed.

(** ** The file job *)

(** A line comes back as it was, rewritten, or with the marker after
    all of it. *)
Lemma convert_logger_log_shapes line :
  convert_logger_log line = line
  ∨ convert_logger_log line = re_sub pattern replacer line
  ∨ convert_logger_log line = line ++ review_marker.
Proof.
  rewrite convert_logger_log_cases.
  destruct (has_match pattern line); [by right; left|].
  destruct (contains legacy_name line); [by right; right|by left].
Qed.

(** On the review path the marker follows the line feed of the line. *)
Lemma review_marker_after_line_feed body :
  contains legacy_name (body ++ [newline]) = true →
  has_match pattern (body ++ [newline]) = false →
  convert_logger_log (body ++ [newline]) = body ++ [newline] ++ review_marker.
Proof.
  intros Hn Hm. by rewrite convert_logger_log_cases, Hm, Hn, <- app_assoc.
Qed.

(** What a successful job writes: the lines read, each one converted,
    in their order. *)
Lemma process_file_writes path w w' :
  process_file path w = inr w' →
  ∃ name content r wr,
    resolve path = inr name
    ∧ files w !! name = Some (File content r wr)
    ∧ files w' !! name =
        Some (File (concat (map convert_logger_log (readlines content))) r true)
    ∧ stdout w' = stdout w ++ [str "Processed: " ++ path].
Proof.
  unfold process_file, open_read, open_write, print.
  destruct (resolve path) as [e|name] eqn:Er; [done|].
  destruct (files w !! name) as [[content r wr|e r wr|]|] eqn:E;
    [|by destruct r|done..].
  destruct r; [|done]. destruct wr; [|done]. intros [= <-].
  exists name, content, true, true. cbn [files stdout].
  by rewrite lookup_insert_eq.
Qed.

(** ** The matches of a line, one after the other *)

Lemma gap_rewrites t rest out :
  no_call_starts t rest → rewrites rest out → rewrites (t ++ rest) (t ++ out).
Proof.
  intros Ht Hr. induction t as [|a t IH]; [done|].
  destruct Ht as [Ha Ht]. rewrite <- !app_comm_cons.
  apply rewrites_char; [done|]. by apply IH.
Qed.

Lemma replacement_rewritten_call c : replacement c = rewritten_call c.
Proof. done. Qed.

Lemma scan_rewrites segs last :
  scan segs last →
  rewrites (interleave call_text segs last) (interleave rewritten_call segs last).
Proof.
  induction segs as [|[t c] segs IH]; cbn [scan interleave].
  - intros H. rewrite <- (app_nil_r last). apply gap_rewrites; [done|].
    constructor.
  - intros (Ht & Hc & Hs). apply gap_rewrites; [done|].
    rewrite <- replacement_rewritten_call. constructor; [done|]. by apply IH.
Qed.

(** Every line is such a sequence of calls and text. *)
Lemma scan_exists line :
  ∃ segs last, line = interleave call_text segs last ∧ scan segs last.
Proof.
  remember (length line) as n eqn:Hn. revert line Hn.
  induction n as [n IH] using lt_wf_ind. intros line ->.
  destruct line as [|a s]; [by exists [], []|].
  destruct (match_at pattern (a :: s)) as [[rest g]|] eqn:E.
  - pose proof (match_at_pattern_shorter _ _ _ E) as Hlt.
    apply match_at_pattern_inv in E as (c & Hc & -> & _).
    destruct (IH _ Hlt rest eq_refl) as (segs & last & -> & Hs).
    exists (([], c) :: segs), last. by cbn [interleave scan no_call_starts].
  - assert (∀ c r, call_ok c = true → a :: s ≠ call_text c ++ r) as Ha
      by by apply match_at_pattern_None.
    destruct (IH (length s) ltac:(simpl; lia) s eq_refl)
      as (segs & last & -> & Hs).
    destruct segs as [|[t c] segs].
    + exists [], (a :: last). cbn [interleave scan no_call_starts] in *.
      by rewrite app_nil_r.
    + exists ((a :: t, c) :: segs), last.
      cbn [interleave scan no_call_starts] in *. by destruct_and!.
Qed.

(** ** The positions of the matches *)

Lemma match_positions_spec s : ∀ i n,
  n ∈ match_positions s i ↔
  ∃ a b, s = a ++ b ∧ n = (i + length a)%nat ∧ is_Some (match_at pattern b).
Proof.
  induction s as [|x s IH]; intros i n; cbn [match_positions].
  - rewrite app_nil_r. split.
    + destruct (match_at pattern []) eqn:E; [|by intros ?%elem_of_nil].
      intros ->%list_elem_of_singleton. exists [], []. rewrite E.
      split_and!; [done|simpl; lia|by eexists].
    + intros (a & b & Hab & -> & [r Hr]). symmetry in Hab.
      apply app_eq_nil in Hab as [-> ->]. rewrite Hr.
      apply list_elem_of_singleton. simpl. lia.
  - rewrite elem_of_app, IH. split.
    + intros [H|(a & b & -> & -> & Hb)].
      * destruct (match_at pattern (x :: s)) eqn:E; [|by apply elem_of_nil in H].
        apply list_elem_of_singleton in H as ->. exists [], (x :: s).
        rewrite E. split_and!; [done|simpl; lia|by eexists].
      * exists (x :: a), b. split_and!; [done|simpl; lia|done].
    + intros (a & b & Hab & -> & [r Hr]). destruct a as [|y a].
      * left. rewrite app_nil_l in Hab. subst b. rewrite Hr.
        apply list_elem_of_singleton. simpl. lia.
      * rewrite <- app_comm_cons in Hab. injection Hab as -> ->. right.
        exists a, b. split_and!; [done|simpl; lia|by eexists].
Qed.

Lemma match_positions_nil s i :
  match_positions s i = [] ↔ has_match pattern s = false.
Proof.
  revert i. induction s as [|x s IH]; intros i;
    cbn [match_positions has_match].
  - destruct (match_at pattern []); [|done]. by split.
  - destruct (match_at pattern (x :: s)); [by split|]. apply IH.
Qed.

Lemma denotes_tail_inv m g g' :
  denotes tail_re m g g' →
  ∃ l ws, location_ok l = true ∧ forallb is_space ws = true
    ∧ m = location_text l ++ ws ++ str ");".
Proof.
  unfold tail_re, location_re. cbn [denotes]. intros H.
  repeat match goal with
         | H : ∃ _, _ |- _ => destruct H as [? H]
         | H : _ ∧ _ |- _ => destruct H as [? ?]
         end; subst.
  match goal with H : _ ∨ _ |- _ => destruct H as [H|H] end;
    repeat match goal with
           | H : ∃ _, _ |- _ => destruct H as [? H]
           | H : _ ∧ _ |- _ => destruct H as [? ?]
           end; subst.
  - eexists None, _. split_and!; [done|eassumption|done].
  - eexists (Some (Location _ _ _ _)), _.
    split_and!; [|eassumption|reflexivity].
    cbn. rewrite !andb_true_iff. by split_and!.
Qed.

(** At a message that stops at a double quote the pattern matches
    exactly when the text after the quote reads as the end of a call. *)
Lemma match_at_embedded_quote_iff c after :
  head_ok c = true →
  forallb (in_class (CNot dquote)) (message c) = true →
  is_Some (match_at pattern (call_head c ++ message c ++ [dquote] ++ after))
  ↔ is_Some (match_at tail_re after).
Proof.
  intros Hc Hm. split.
  - intros [r Hr]. destruct (match_at tail_re after) eqn:E; [by eexists|].
    by rewrite match_at_embedded_quote in Hr.
  - intros [[rest g] Hr]. apply match_at_sound in Hr as (m & -> & Hd).
    apply denotes_tail_inv in Hd as (l & ws & Hl & Hws & ->).
    unfold head_ok in Hc. rewrite !andb_true_iff in Hc. destruct_and!.
    pose (c' := Call (ws_open c) (ws_level c) (level_name c) (ws_comma c)
                  (ws_message c) (message c) l ws).
    assert (call_ok c' = true) as Hc'.
    { unfold call_ok, c'. call_parts. rewrite !andb_true_iff. by split_and!. }
    replace (call_head c ++ message c ++ [dquote]
             ++ (location_text l ++ ws ++ str ");") ++ rest)
      with (call_text c' ++ rest).
    + rewrite match_at_call by done. by eexists.
    + unfold call_text, call_head, call_level, c'. call_parts.
      by rewrite <- !app_assoc.
Qed.

(** ** The loop over the paths *)

(** What a round does to the files depends on the files only. *)
Lemma process_or_report_files_only w1 w2 p :
  files w1 = files w2 →
  files (process_or_report w1 p) = files (process_or_report w2 p).
Proof.
  intros E. unfold process_or_report, process_file, print. rewrite E.
  destruct (open_read (files w2) p) as [e|lines]; [done|].
  by destruct (open_write (files w2) p _).
Qed.

Lemma foldl_process_files_only ps : ∀ w1 w2,
  files w1 = files w2 →
  files (foldl process_or_report w1 ps) = files (foldl process_or_report w2 ps).
Proof.
  induction ps as [|p ps IH]; intros w1 w2 E; [done|]. cbn [foldl].
  by apply IH, process_or_report_files_only.
Qed.

(** * The claims *)

(** C3.  [convert_log_level] takes each of the five level tokens to its
    own macro name, the five macro names are pairwise distinct, and any
    other string is taken to the INFO macro.  The function is a lookup
    in a constant table: it has no effect besides its result. *)
Theorem convert_log_level_table :
  convert_log_level (str "LogLevel::DEBUG") = str "SLOG_DEBUG()"
  ∧ convert_log_level (str "LogLevel::INFO") = str "SLOG_INFO()"
  ∧ convert_log_level (str "LogLevel::WARNING") = str "SLOG_WARNING()"
  ∧ convert_log_level (str "LogLevel::ERROR_LEVEL") = str "SLOG_ERROR()"
  ∧ convert_log_level (str "LogLevel::CRITICAL") = str "SLOG_CRITICAL()"
  ∧ NoDup macro_names
  ∧ ∀ s, s ∉ level_tokens → convert_log_level s = str "SLOG_INFO()".
Proof.
  split_and!; try by vm_compute.
  - apply (bool_decide_unpack _). by vm_compute.
  - apply convert_log_level_other.
Qed.

(** C9.  The branches of [replacer] on the tags of the message all give
    the same text: [replacer] is the branch-free [replacer_uniform], and
    for the match of a call it returns the macro of the level followed
    by the accessor call with the message. *)
Theorem replacer_refines_uniform :
  (∀ m, replacer m = replacer_uniform m)
  ∧ (∀ c, replacer (call_groups c) =
          convert_log_level (call_level c) ++ str ".message(" ++ [dquote]
          ++ message c ++ [dquote] ++ str ");").
Proof.
  split.
  - intros m. unfold replacer, replacer_uniform, message_call.
    by repeat case_match.
  - intros c. by rewrite replacer_call.
Qed.

(** C7.  A line in which the call name does not occur is returned as it
    is. *)
Theorem convert_logger_log_without_name line :
  (∀ a b, line ≠ a ++ legacy_name ++ b) →
  convert_logger_log line = line.
Proof.
  intros H. apply convert_logger_log_no_name.
  destruct (contains legacy_name line) eqn:E; [|done].
  apply contains_true in E as (a & b & ->). by destruct (H a b).
Qed.

(** C10.  The substitution leaves a line as it is exactly when the
    pattern has no match in it; the review marker is appended exactly
    when the line contains the call name and the pattern has no match;
    a line with a match is returned rewritten and without the marker,
    also when the call name occurs once more in it without matching; and
    the replacement of a call is never the text of the call. *)
Theorem review_marker_iff_unmatched line c :
  (re_sub pattern replacer line = line ↔ has_match pattern line = false)
  ∧ (convert_logger_log line = line ++ review_marker ↔
     contains legacy_name line = true ∧ has_match pattern line = false)
  ∧ (has_match pattern line = true →
     convert_logger_log line = re_sub pattern replacer line
     ∧ convert_logger_log line ≠ line ++ review_marker)
  ∧ replacement c ≠ call_text c
  ∧ convert_logger_log matched_and_unmatched =
      str "SLOG_INFO().message(" ++ [dquote] ++ str "a" ++ [dquote]
      ++ str "); Logger::log(x);".
Proof.
  split_and!.
  - apply re_sub_id_iff.
  - rewrite convert_logger_log_cases. split.
    + destruct (has_match pattern line) eqn:H.
      { intros E. by apply re_sub_changes in E. }
      destruct (contains legacy_name line); [done|].
      intros E. rewrite <- (app_nil_r line) in E at 1.
      apply app_inv_head in E. by destruct review_marker_nonempty.
    + by intros [-> ->].
  - intros H. rewrite convert_logger_log_cases, H. split; [done|].
    by apply re_sub_changes.
  - rewrite <- replacer_call.
    destruct (replacer_head (call_groups c)) as [t ->].
    destruct (call_text_head c) as [t' ->]. intros [=].
  - by vm_compute.
Qed.

(** C4, as the code has it.  A second pass returns what the first pass
    returned exactly when the call name no longer occurs in it; a line
    that still contains the name is changed again. *)
Theorem convert_logger_log_twice line :
  convert_logger_log (convert_logger_log line) = convert_logger_log line
  ↔ contains legacy_name (convert_logger_log line) = false.
Proof.
  split.
  - intros E. destruct (contains legacy_name _) eqn:H; [|done].
    by apply convert_logger_log_name in H.
  - apply convert_logger_log_no_name.
Qed.


(** C5.  A line with two or more matches is returned with every one of
    them rewritten, to the macro of its level and the accessor call with
    its message, and with all the text between, before and after them
    as it was, whatever that text is; and every line is such a sequence
    of matches and text. *)
Theorem every_call_rewritten :
  (∀ segs last,
     (2 ≤ length segs)%nat →
     scan segs last →
     convert_logger_log (interleave call_text segs last) =
     interleave rewritten_call segs last)
  ∧ (∀ line, ∃ segs last,
       line = interleave call_text segs last ∧ scan segs last).
Proof.
  split; [|apply scan_exists].
  intros segs last Hlen Hscan.
  rewrite convert_logger_log_cases, (re_sub_rewrites _ _ (scan_rewrites _ _ Hscan)).
  destruct segs as [|[t c] segs]; [simpl in Hlen; lia|].
  destruct Hscan as (_ & Hc & _).
  replace (has_match pattern _) with true; [done|].
  symmetry. apply has_match_true. cbn [interleave]. eauto.
Qed.

(** C8, as the code has it.  On a line with a call whose message runs
    into a double quote, the pattern matches at that call exactly when
    the text after the quote reads as the end of a call; the review
    marker is appended exactly when it does not and the pattern matches
    nowhere else on the line; otherwise the line is returned rewritten,
    without the marker. *)
Theorem embedded_quote_flagged pre c after :
  head_ok c = true →
  forallb (in_class (CNot dquote)) (message c) = true →
  (length pre ∈ match_positions (embedded_quote_line pre c after) 0
   ↔ is_Some (match_at tail_re after))
  ∧ (convert_logger_log (embedded_quote_line pre c after) =
       embedded_quote_line pre c after ++ review_marker
     ↔ match_at tail_re after = None
       ∧ ∀ i, i ∈ match_positions (embedded_quote_line pre c after) 0 →
              i = length pre)
  ∧ (is_Some (match_at tail_re after)
     ∨ (∃ i, i ∈ match_positions (embedded_quote_line pre c after) 0
             ∧ i ≠ length pre) →
     convert_logger_log (embedded_quote_line pre c after) =
       re_sub pattern replacer (embedded_quote_line pre c after)
     ∧ convert_logger_log (embedded_quote_line pre c after) ≠
       embedded_quote_line pre c after ++ review_marker).
Proof.
  intros Hc Hm.
  assert (length pre ∈ match_positions (embedded_quote_line pre c after) 0
          ↔ is_Some (match_at tail_re after)) as Hhere.
  { rewrite <- (match_at_embedded_quote_iff c after Hc Hm), match_positions_spec.
    unfold embedded_quote_line. split.
    - intros (a & b & E & Hlen & Hb). simpl in Hlen.
      by apply app_inj_1 in E as [_ ->].
    - intros Hb. by exists pre, (call_head c ++ message c ++ [dquote] ++ after). }
  assert (contains legacy_name (embedded_quote_line pre c after) = true)
    as Hname.
  { apply contains_true. exists pre. unfold embedded_quote_line, call_head.
    rewrite <- !app_assoc. eauto. }
  assert (has_match pattern (embedded_quote_line pre c after) = true →
          convert_logger_log (embedded_quote_line pre c after) =
            re_sub pattern replacer (embedded_quote_line pre c after)
          ∧ convert_logger_log (embedded_quote_line pre c after) ≠
            embedded_quote_line pre c after ++ review_marker) as Hmatch.
  { intros H. rewrite convert_logger_log_cases, H. split; [done|].
    by apply re_sub_changes. }
  split_and!; [done| |].
  - split.
    + intros E.
      destruct (has_match pattern (embedded_quote_line pre c after)) eqn:H.
      { by destruct (Hmatch eq_refl) as [_ []]. }
      apply (match_positions_nil _ 0%nat) in H. rewrite H in *. split.
      * destruct (match_at tail_re after) eqn:Ha; [|done].
        assert (is_Some (Some p)) as Hs by by eexists.
        apply Hhere in Hs. by apply elem_of_nil in Hs.
      * by intros i ?%elem_of_nil.
    + intros [Ha Hall]. rewrite convert_logger_log_cases, Hname.
      replace (has_match pattern _) with false; [done|].
      symmetry. apply (match_positions_nil _ 0%nat).
      destruct (match_positions _ 0) as [|i l] eqn:E; [done|].
      assert (i = length pre) as -> by (apply Hall, elem_of_cons; by left).
      assert (is_Some (match_at tail_re after)) as [? ?]; [|congruence].
      apply Hhere, elem_of_cons. by left.
  - intros H. apply Hmatch.
    destruct (has_match pattern (embedded_quote_line pre c after)) eqn:E;
      [done|].
    apply (match_positions_nil _ 0%nat) in E. rewrite E in *.
    destruct H as [H|(i & H & _)].
    + apply Hhere in H. by apply elem_of_nil in H.
    + by apply elem_of_nil in H.
Qed.

(** C1, at a file the code treats otherwise.  The lines of
    [flagged_file] end with their line feed; the first one takes the
    review path, and the marker is put after its line feed: in the file
    written back the marker opens the second line. *)
Theorem marker_lands_after_newline path name out :
  resolve path = inr name →
  readlines flagged_file =
    [ str "Logger::log(level, msg);" ++ [newline];
      str "next();" ++ [newline] ]
  ∧ convert_logger_log (str "Logger::log(level, msg);" ++ [newline]) =
      str "Logger::log(level, msg);" ++ [newline] ++ review_marker
  ∧ process_file path (World {[ name := File flagged_file true true ]} out) =
      inr (World {[ name := File flagged_file_processed true true ]}
             (out ++ [str "Processed: " ++ path])).
Proof.
  intros Hname. split_and!; [by vm_compute..|].
  unfold process_file, open_read, open_write, print. cbn [files stdout].
  rewrite Hname, lookup_singleton_eq. cbn [files stdout].
  rewrite insert_singleton_eq. do 4 f_equal; by vm_compute.
Qed.

(** C6.  Without a path the script prints the usage line and exits with
    1; with one path or more it exits with 0.  A path that
    [process_file] fails on gets one line that names it and the cause,
    the loop goes on with the paths that follow, and the files end as
    the loop over the other paths leaves them.  A path that leads
    nowhere, or to no file, is such a failure. *)
Theorem main_exit_codes_and_failures :
  (∀ argv w, (length argv < 2)%nat →
     main argv w =
       (World (files w)
          (stdout w
           ++ [str "Usage: python convert_logging.py <file1> [file2] ..."]),
        1%Z))
  ∧ (∀ argv w, (2 ≤ length argv)%nat → (main argv w).2 = 0%Z)
  ∧ (∀ prog before p after w e,
       process_file p (foldl process_or_report w before) = inl e →
       main (prog :: before ++ p :: after) w =
         (foldl process_or_report
            (World (files (foldl process_or_report w before))
               (stdout (foldl process_or_report w before)
                ++ [str "Error processing " ++ p ++ str ": " ++ exn_str e]))
            after, 0%Z)
       ∧ files (main (prog :: before ++ p :: after) w).1 =
         files (foldl process_or_report w (before ++ after)))
  ∧ (∀ p w e, resolve p = inl e → process_file p w = inl e)
  ∧ (∀ p name w, resolve p = inr name → files w !! name = None →
       process_file p w = inl (FileNotFoundError p)).
Proof.
  split_and!.
  - intros argv w H. unfold main. by rewrite bool_decide_eq_true_2.
  - intros argv w H. unfold main. rewrite bool_decide_eq_false_2; [done|lia].
  - intros prog before p after w e H.
    assert (main (prog :: before ++ p :: after) w =
      (foldl process_or_report
         (World (files (foldl process_or_report w before))
            (stdout (foldl process_or_report w before)
             ++ [str "Error processing " ++ p ++ str ": " ++ exn_str e]))
         after, 0%Z)) as E.
    { unfold main. rewrite bool_decide_eq_false_2.
      - cbn [drop]. rewrite drop_0, foldl_app. cbn [foldl].
        unfold process_or_report at 2. by rewrite H.
      - rewrite length_cons, length_app, length_cons. lia. }
    split; [done|]. rewrite E. cbn [fst]. rewrite foldl_app.
    by apply foldl_process_files_only.
  - intros p w e H. unfold process_file, open_read. by rewrite H.
  - intros p name w Hr H. unfold process_file, open_read. by rewrite Hr, H.
Qed.

(** * More of the code *)

(** ** The pattern *)

(** X1.  The pattern matches at the start of a text exactly when the
    text starts with a well-formed call; the match is that call, whole,
    and its groups are the level and the message. *)
Theorem pattern_matches_exactly_calls s rest g :
  match_at pattern s = Some (rest, g) ↔
  ∃ c, call_ok c = true ∧ s = call_text c ++ rest ∧ g = call_groups c.
Proof.
  split; [apply match_at_pattern_inv|].
  intros (c & Hc & -> & ->). by apply match_at_call.
Qed.

(** X2.  The substitution is the rewriting from left to right, and the
    rewriting gives one text only. *)
Theorem re_sub_is_rewriting line out :
  rewrites line out ↔ out = re_sub pattern replacer line.
Proof.
  split; [intros H; symmetry; by apply re_sub_rewrites|].
  intros ->. apply rewrites_re_sub.
Qed.

(** X3.  A call whose level is none of the five is rewritten all the
    same, to the INFO macro. *)
Theorem unknown_level_becomes_info pre c post :
  call_ok c = true →
  call_level c ∉ level_tokens →
  contains legacy_name pre = false →
  contains legacy_name post = false →
  convert_logger_log (pre ++ call_text c ++ post) =
  pre ++ str "SLOG_INFO().message(" ++ [dquote] ++ message c ++ [dquote]
  ++ str ");" ++ post.
Proof.
  intros Hc Hlevel Hpre Hpost.
  rewrite convert_logger_log_cases.
  replace (has_match pattern _) with true
    by (symmetry; apply has_match_true; eauto).
  change (pre ++ call_text c ++ post)
    with (interleave call_text [(pre, c)] post).
  rewrite re_sub_interleave; [|unfold segment_ok; cbn [forallb fst snd];
    by rewrite Hpre, Hc|done].
  cbn [interleave]. unfold replacement, message_call.
  rewrite convert_log_level_other by done.
  by rewrite <- !app_assoc.
Qed.

(** ** Characters the call name does not have *)

Lemma starts_with_stop d p : ∀ a b,
  d ∉ p → starts_with p (a ++ d :: b) = starts_with p a.
Proof.
  unfold starts_with. induction p as [|x p IH]; intros a b Hd; [done|].
  apply not_elem_of_cons in Hd as [Hx Hd].
  destruct a as [|y a]; simpl.
  - destruct (N.eqb_spec x d); [congruence|done].
  - destruct (x =? y); [by apply IH|done].
Qed.

(** An occurrence of [p] does not go over a character [p] lacks. *)
Lemma contains_stop d p a b :
  d ∉ p → p ≠ [] →
  contains p (a ++ d :: b) = contains p a || contains p b.
Proof.
  intros Hd Hp. induction a as [|y a IH].
  - destruct p as [|x p]; [done|]. simpl.
    apply not_elem_of_cons in Hd as [Hx _]. unfold starts_with. simpl.
    by destruct (N.eqb_spec x d); [congruence|].
  - rewrite <- app_comm_cons. cbn [contains].
    rewrite IH, app_comm_cons, starts_with_stop by done.
    by rewrite orb_assoc.
Qed.

Lemma contains_nil p : p ≠ [] → contains p [] = false.
Proof. by destruct p. Qed.

Lemma contains_snoc d p a :
  d ∉ p → p ≠ [] → contains p (a ++ [d]) = contains p a.
Proof.
  intros Hd Hp. by rewrite contains_stop, contains_nil, orb_false_r.
Qed.

Lemma legacy_name_nonempty : legacy_name ≠ [].
Proof. by rewrite legacy_name_chars. Qed.

Lemma legacy_name_lacks d :
  d ∈ [newline; dquote; 59; 83] → d ∉ legacy_name.
Proof.
  rewrite legacy_name_chars, !elem_of_cons.
  intros [->|[->|[->|[->|H]]]]; [..|by apply elem_of_nil in H];
    apply (bool_decide_unpack _); by vm_compute.
Qed.

Lemma call_text_last c : ∃ t, call_text c = t ++ [59].
Proof.
  unfold call_text. change (str ");") with ([41] ++ [59]).
  eexists. by rewrite !app_assoc.
Qed.

(** ** The end of the line *)

(** A character other than the semicolon after the line does not change
    how the line is rewritten. *)
Lemma rewrites_snoc d s out :
  d ≠ 59 → rewrites s out → rewrites (s ++ [d]) (out ++ [d]).
Proof.
  intros Hd. induction 1 as [|c rest out Hc _ IH|a rest out Hno _ IH].
  - apply rewrites_char; [|constructor]. intros c rest' _ E.
    destruct (call_text_name c) as [x Hx].
    rewrite Hx, legacy_name_chars in E. discriminate E.
  - rewrite <- !app_assoc. by constructor.
  - rewrite <- !app_comm_cons. constructor; [|done].
    intros c rest' Hc E. destruct rest' as [|y rest' _] using rev_ind.
    + rewrite app_nil_r in E. destruct (call_text_last c) as [t Ht].
      rewrite Ht, app_comm_cons in E. by apply app_inj_tail in E as [_ ->].
    + rewrite app_assoc, app_comm_cons in E.
      apply app_inj_tail in E as [E _]. by apply (Hno c rest').
Qed.

Lemma re_sub_snoc d s :
  d ≠ 59 →
  re_sub pattern replacer (s ++ [d]) = re_sub pattern replacer s ++ [d].
Proof.
  intros Hd. apply re_sub_rewrites, rewrites_snoc; [done|].
  apply rewrites_re_sub.
Qed.

(** X4.  Off the review path the line feed of a line stays where it is:
    a line without the call name, or with a call that matches, is
    converted as its content is, and its line feed follows. *)
Theorem line_feed_kept body :
  contains legacy_name body = false ∨ has_match pattern body = true →
  convert_logger_log (body ++ [newline]) =
  convert_logger_log body ++ [newline].
Proof.
  intros [H|H].
  - rewrite !convert_logger_log_no_name; [done..|].
    rewrite contains_snoc; [done| |apply legacy_name_nonempty].
    apply legacy_name_lacks. in_list.
  - assert (has_match pattern (body ++ [newline]) = true) as H'.
    { apply has_match_true in H as (a & c & b & Hc & ->).
      apply has_match_true. exists a, c, (b ++ [newline]).
      by rewrite <- !app_assoc. }
    rewrite !convert_logger_log_cases, H, H'. by apply re_sub_snoc.
Qed.

(** ** A second pass over rewritten calls *)

Lemma macro_without_name s :
  contains legacy_name (convert_log_level s ++ str ".message(") = false.
Proof.
  pose proof (convert_log_level_macro s) as H.
  unfold macro_names in H. rewrite !elem_of_cons in H.
  destruct H as [->|[->|[->|[->|[->|H]]]]];
    [by vm_compute..|by apply elem_of_nil in H].
Qed.

(** The replacement of a call has the call name only if the message
    has. *)
Lemma replacement_without_name c :
  contains legacy_name (message c) = false →
  contains legacy_name (replacement c) = false.
Proof.
  intros Hm. unfold replacement, message_call.
  rewrite app_assoc. cbn [app].
  rewrite contains_stop, contains_stop, macro_without_name, Hm;
    [by vm_compute|try apply legacy_name_nonempty;
                   try (apply legacy_name_lacks; in_list)..].
Qed.

Lemma interleave_without_name segs last :
  forallb clean_segment segs = true →
  contains legacy_name last = false →
  contains legacy_name (interleave replacement segs last) = false.
Proof.
  intros Hsegs Hlast. induction segs as [|[t c] segs IH];
    cbn [interleave forallb] in *; [done|].
  apply andb_true_iff in Hsegs as [Hseg Hsegs].
  unfold clean_segment, segment_ok in Hseg. cbn [fst snd] in Hseg.
  rewrite !andb_true_iff, !negb_true_iff in Hseg.
  destruct Hseg as [[Ht Hc] Hm].
  pose proof (replacement_without_name c Hm) as Hr.
  destruct (replacer_head (call_groups c)) as [r1 E1].
  rewrite replacer_call in E1.
  assert (∃ r2, replacement c = r2 ++ [59]) as [r2 E2].
  { unfold replacement, message_call. change (str ");") with ([41] ++ [59]).
    eexists. by rewrite !app_assoc. }
  rewrite E2 in E1, Hr.
  rewrite contains_snoc in Hr;
    [|apply legacy_name_lacks; in_list|apply legacy_name_nonempty].
  destruct r2 as [|x r2]; [discriminate E1|]. injection E1 as -> _.
  apply contains_false_cons in Hr as [_ Hr].
  rewrite E2, <- app_assoc, app_assoc. cbn [app].
  rewrite contains_stop, IH by
    (try done; try apply legacy_name_nonempty;
     try (apply legacy_name_lacks; in_list)).
  rewrite contains_stop, Ht, Hr;
    [done|apply legacy_name_lacks; in_list|apply legacy_name_nonempty].
Qed.

(** X5.  On a line of well-formed calls among text without the call
    name, the messages being without it too, a second pass changes
    nothing: the first pass has removed the name. *)
Theorem clean_calls_second_pass segs last :
  forallb clean_segment segs = true →
  contains legacy_name last = false →
  convert_logger_log (interleave replacement segs last) =
    interleave replacement segs last
  ∧ convert_logger_log (convert_logger_log (interleave call_text segs last)) =
    convert_logger_log (interleave call_text segs last).
Proof.
  intros Hsegs Hlast.
  pose proof (interleave_without_name _ _ Hsegs Hlast) as Hno.
  assert (forallb segment_ok segs = true) as Hok.
  { clear Hno. induction segs as [|seg segs IH]; [done|]. cbn [forallb] in *.
    apply andb_true_iff in Hsegs as [[H _]%andb_true_iff Hsegs].
    by rewrite H, IH. }
  assert (convert_logger_log (interleave call_text segs last) =
          interleave replacement segs last) as E.
  { destruct segs as [|[t c] segs].
    - by apply convert_logger_log_no_name.
    - rewrite convert_logger_log_cases, re_sub_interleave by done.
      cbn [forallb] in Hok.
      apply andb_true_iff in Hok as [[_ Hc]%andb_true_iff _].
      replace (has_match pattern _) with true; [done|].
      symmetry. apply has_match_true. cbn [interleave]. eauto. }
  rewrite E. split; by apply convert_logger_log_no_name.
Qed.

(** ** Reading and writing a file *)

(** The lines read, put together, are the text read. *)
Lemma split_lines_concat s : ∀ cur, concat (split_lines cur s) = cur ++ s.
Proof.
  induction s as [|c s IH]; intros cur; cbn [split_lines].
  - destruct cur; [done|]. simpl. by rewrite !app_nil_r.
  - destruct (c =? newline).
    + cbn [concat]. by rewrite IH, <- app_assoc.
    + by rewrite IH, <- app_assoc.
Qed.

(** What occurs in no part of the text occurs in no line of it. *)
Lemma split_lines_without p s : ∀ cur,
  contains p (cur ++ s) = false →
  Forall (λ l, contains p l = false) (split_lines cur s).
Proof.
  induction s as [|c s IH]; intros cur H; cbn [split_lines].
  - rewrite app_nil_r in H. destruct cur; [constructor|].
    by repeat constructor.
  - assert (contains p ((cur ++ [c]) ++ s) = false) as H'
      by by rewrite <- app_assoc.
    destruct (c =? newline).
    + constructor.
      * destruct (contains p (cur ++ [c])) eqn:E; [|done].
        by rewrite (contains_app_l _ _ s E) in H'.
      * apply IH. destruct (contains p s) eqn:E; [|done].
        by rewrite (contains_app_r _ (cur ++ [c]) _ E) in H'.
    + by apply IH.
Qed.

Lemma universal_newlines_without_cr s :
  forallb (λ c, negb (c =? cr)) s = true → universal_newlines s = s.
Proof.
  induction s as [|c s IH]; [done|]. cbn [forallb universal_newlines].
  intros [Hc Hs]%andb_true_iff. apply negb_true_iff in Hc.
  by rewrite Hc, IH.
Qed.

Lemma map_convert_without_name ls :
  Forall (λ l, contains legacy_name l = false) ls →
  map convert_logger_log ls = ls.
Proof.
  induction 1 as [|l ls Hl _ IH]; [done|]. cbn [map].
  by rewrite convert_logger_log_no_name, IH.
Qed.

(** X6.  A path that leads to a regular file that may be read and
    written, whose bytes decode and in which the call name does not
    occur: the file is written back as it was read, that is with its
    line ends as line feeds, and is reported as processed; when it has
    no carriage return the files are left as they were. *)
Theorem process_file_without_calls path name w content :
  resolve path = inr name →
  files w !! name = Some (File content true true) →
  contains legacy_name (universal_newlines content) = false →
  process_file path w =
    inr (World (<[name := File (universal_newlines content) true true]> (files w))
           (stdout w ++ [str "Processed: " ++ path]))
  ∧ (forallb (λ c, negb (c =? cr)) content = true →
     process_file path w =
       inr (World (files w) (stdout w ++ [str "Processed: " ++ path]))).
Proof.
  intros Hname Hfile Hno.
  assert (process_file path w =
    inr (World (<[name := File (universal_newlines content) true true]> (files w))
           (stdout w ++ [str "Processed: " ++ path]))) as E.
  { unfold process_file, open_read, open_write, print. rewrite Hname, Hfile.
    cbn [files stdout]. rewrite map_convert_without_name.
    - unfold readlines. by rewrite split_lines_concat.
    - by apply split_lines_without. }
  split; [done|]. intros Hcr. rewrite E.
  by rewrite universal_newlines_without_cr, insert_id by done.
Qed.


(** ** The loop over the paths *)

Lemma process_or_report_files w p name :
  resolve p ≠ inr name →
  files (process_or_report w p) !! name = files w !! name.
Proof.
  intros Hp. unfold process_or_report, process_file, open_read, open_write, print.
  destruct (resolve p) as [e|name'] eqn:Er; [done|].
  assert (name' ≠ name) as Hne by congruence.
  destruct (files w !! name') as [[content r wr|e r wr|]|]; [|by destruct r|done..].
  destruct r; [|done]. destruct wr; [|done]. cbn [files].
  by rewrite lookup_insert_ne.
Qed.

Lemma process_or_report_stdout w p :
  ∃ l, stdout (process_or_report w p) = stdout w ++ [l] ∧ report_line p l.
Proof.
  unfold process_or_report, report_line.
  destruct (process_file p w) as [e|w'] eqn:E.
  - eexists. split; [done|]. right. by exists e.
  - eexists. split; [|by left].
    by apply process_file_writes in E as (? & ? & ? & ? & _ & _ & _ & ->).
Qed.

(** X8.  The script leaves alone every file that none of the paths it
    was given leads to: such a file is the same, or as absent, after
    the run as before. *)
Theorem main_touches_named_files_only argv w name :
  (∀ p, p ∈ drop 1 argv → resolve p ≠ inr name) →
  files (main argv w).1 !! name = files w !! name.
Proof.
  unfold main. case_bool_decide; [done|]. cbn [fst].
  generalize (drop 1 argv) as paths. intros paths. revert w.
  induction paths as [|p paths IH]; intros w Hq; [done|]. cbn [foldl].
  rewrite IH, process_or_report_files; [done|..].
  - apply Hq, elem_of_cons. by left.
  - intros q Hin. apply Hq, elem_of_cons. by right.
Qed.

(** X9.  Given paths, the script prints one line for each, in their
    order and after what was printed before: that the path was
    processed, or that it was not, with the cause. *)
Theorem main_reports_each_path argv w :
  (2 ≤ length argv)%nat →
  ∃ lines,
    stdout (main argv w).1 = stdout w ++ lines
    ∧ Forall2 report_line (drop 1 argv) lines.
Proof.
  intros Hlen. unfold main. rewrite bool_decide_eq_false_2 by lia. cbn [fst].
  generalize (drop 1 argv) as paths. intros paths. revert w.
  induction paths as [|p paths IH]; intros w.
  - exists []. by rewrite app_nil_r.
  - cbn [foldl]. destruct (IH (process_or_report w p)) as (lines & E & Hl).
    destruct (process_or_report_stdout w p) as (l & El & Hr).
    exists (l :: lines). split; [|by constructor].
    by rewrite E, El, <- app_assoc.
Qed.

(** ** White space before the semicolon *)

(** X10.  White space between the closing parenthesis and the semicolon
    is not part of the pattern: a call written so is not matched, and
    when it is the one use of the call name on its line, the line is
    flagged for review. *)
Theorem spaced_semicolon_flagged pre c ws post :
  call_ok c = true →
  ws ≠ [] →
  forallb is_space ws = true →
  occurrences legacy_name (spaced_semicolon_line pre c ws post) 0 = [length pre] →
  match_at pattern (call_open c ++ str ")" ++ ws ++ str ";" ++ post) = None
  ∧ convert_logger_log (spaced_semicolon_line pre c ws post) =
    spaced_semicolon_line pre c ws post ++ review_marker.
Proof.
  intros Hc Hne Hws Hocc.
  assert (match_at pattern (call_open c ++ str ")" ++ ws ++ str ";" ++ post)
          = None) as Hcall.
  { apply match_at_pattern_None. intros c' rest Hc' E.
    apply call_ok_parts in Hc, Hc'. destruct_and!.
    destruct c as [a1 b1 w1 d1 e1 m1 l1 f1], c' as [a2 b2 w2 d2 e2 m2 l2 f2].
    unfold call_open, call_head, call_text, call_level in E. call_parts.
    rewrite <- !app_assoc in E. do 12 peel E.
    assert (∀ f x y, forallb is_space f = true →
              f1 ++ str ")" ++ ws ++ str ";" ++ x = f ++ str ");" ++ y → False)
      as Hend.
    { intros f x y Hf E'. peel E'. destruct ws as [|s ws]; [done|].
      cbn [forallb] in Hws. apply andb_true_iff in Hws as [Hs _].
      change (str ")") with [41] in E'. change (str ");") with [41; 59] in E'.
      cbn [app] in E'. injection E' as -> _. by vm_compute in Hs. }
    destruct l1 as [[p1 q1 s1 t1]|], l2 as [[p2 q2 s2 t2]|]; call_parts;
      rewrite <- ?app_assoc, ?app_nil_l in E;
      repeat match goal with
             | H : location_ok (Some _) = true |- _ =>
                 apply location_ok_parts in H; call_parts; destruct_and!
             end.
    - do 8 peel E. by eapply Hend.
    - peel E. discriminate E.
    - peel E. discriminate E.
    - by eapply Hend. }
  split; [done|].
  assert (has_match pattern (spaced_semicolon_line pre c ws post) = false)
    as Hno.
  { apply has_match_false. intros a b E.
    destruct (match_at pattern b) as [[rest g]|] eqn:Eb; [|done].
    pose proof (match_at_pattern_name _ _ _ Eb) as Hb.
    apply (occurrences_here _ a _ 0%nat) in Hb.
    rewrite <- E, Hocc in Hb. apply list_elem_of_singleton in Hb.
    simpl in Hb. unfold spaced_semicolon_line in E.
    apply app_inj_1 in E as [-> <-]; [|done].
    by rewrite Hcall in Eb. }
  rewrite convert_logger_log_cases, Hno.
  replace (contains legacy_name _) with true; [done|].
  symmetry. apply contains_true. exists pre.
  unfold spaced_semicolon_line, call_open, call_head.
  rewrite <- !app_assoc. eauto.
Qed.

End Interpreter.

(** * The claims on examples *)

(** C3 on a level the table does not know. *)
Lemma convert_log_level_table_witness :
  (str "LogLevel::TRACE" ∉ level_tokens)
  ∧ convert_log_level (str "LogLevel::TRACE") = str "SLOG_INFO()".
Proof.
  assert (str "LogLevel::TRACE" ∉ level_tokens) as H.
  { apply (bool_decide_unpack _). vm_compute. exact I. }
  split; [exact H|].
  exact (proj2 (proj2 (proj2 (proj2 (proj2 (proj2
           convert_log_level_table))))) _ H).
Defined.

(** C7 on a line of other code. *)
Lemma convert_logger_log_without_name_witness :
  (∀ a b, str "int x = 1;" ≠ a ++ legacy_name ++ b)
  ∧ convert_logger_log ascii_only (str "int x = 1;") = str "int x = 1;".
Proof.
  assert (∀ a b, str "int x = 1;" ≠ a ++ legacy_name ++ b) as H.
  { intros a b E.
    assert (contains legacy_name (str "int x = 1;") = true) as Hc.
    { apply contains_true. eauto. }
    vm_compute in Hc. discriminate Hc. }
  split; [exact H|].
  exact (convert_logger_log_without_name ascii_only _ H).
Defined.

(** C10 on the line with a call that matches and one that does not. *)
Lemma review_marker_iff_unmatched_witness :
  has_match ascii_only pattern matched_and_unmatched = true
  ∧ convert_logger_log ascii_only matched_and_unmatched =
      re_sub ascii_only pattern replacer matched_and_unmatched
  ∧ convert_logger_log ascii_only matched_and_unmatched ≠
      matched_and_unmatched ++ review_marker.
Proof.
  assert (has_match ascii_only pattern matched_and_unmatched = true) as H.
  { vm_compute. reflexivity. }
  split; [exact H|].
  exact (proj1 (proj2 (proj2
           (review_marker_iff_unmatched ascii_only matched_and_unmatched
              disk_full_call))) H).
Defined.

(** C4 fails on a line that takes the review path: the second pass
    appends the marker once more. *)
Lemma second_pass_marks_again :
  ∃ line, line = str "Logger::log(level, msg);" ∧
    ∀ uk,
      convert_logger_log uk line = line ++ review_marker
      ∧ convert_logger_log uk (convert_logger_log uk line) =
          line ++ review_marker ++ review_marker
      ∧ convert_logger_log uk (convert_logger_log uk line) ≠
          convert_logger_log uk line.
Proof.
  eexists. split; [reflexivity|]. intros uk.
  split_and!; [by vm_compute..|]. vm_compute. discriminate.
Qed.


(** C5 on a line with two calls and, between them, a use of the call
    name that is no call. *)
Lemma every_call_rewritten_witness :
  (2 ≤ length [([], info_a_call); (unmatched_between, debug_b_call)])%nat
  ∧ scan ascii_only [([], info_a_call); (unmatched_between, debug_b_call)] []
  ∧ convert_logger_log ascii_only
      (interleave call_text
         [([], info_a_call); (unmatched_between, debug_b_call)] []) =
    interleave rewritten_call
      [([], info_a_call); (unmatched_between, debug_b_call)] [].
Proof.
  assert (2 ≤ length [(([] : text), info_a_call);
                      (unmatched_between, debug_b_call)])%nat as H1.
  { simpl. lia. }
  assert (scan ascii_only
            [([], info_a_call); (unmatched_between, debug_b_call)] []) as H2.
  { cbn [scan no_call_starts]. split_and!; [exact I|reflexivity| |reflexivity|exact I].
    let l := eval vm_compute in unmatched_between in
    change unmatched_between with l.
    cbn [no_call_starts].
    repeat split;
      apply (proj1 (match_at_pattern_None ascii_only _)); vm_compute;
      reflexivity. }
  split; [exact H1|]. split; [exact H2|].
  exact (proj1 (every_call_rewritten ascii_only) _ _ H1 H2).
Defined.

(** C8 fails when the text after the embedded double quote reads as the
    end of a call: the pattern matches up to there, the line is
    rewritten, and no marker is appended. *)
Lemma embedded_quote_matched :
  ∃ line,
    line = str "Logger::log(LogLevel::INFO, " ++ [dquote] ++ str "say \"
           ++ [dquote] ++ str ");" ++ [dquote] ++ str ");" ∧
    ∀ uk,
      has_match uk pattern line = true
      ∧ convert_logger_log uk line =
          str "SLOG_INFO().message(" ++ [dquote] ++ str "say \" ++ [dquote]
          ++ str ");" ++ [dquote] ++ str ");"
      ∧ convert_logger_log uk line ≠ line ++ review_marker.
Proof.
  eexists. split; [reflexivity|]. intros uk.
  split_and!; [by vm_compute..|]. vm_compute. discriminate.
Qed.

(** C8, amended, on a call whose message holds an escaped quote, with
    a comment after it that names the call. *)
Lemma embedded_quote_flagged_witness :
  head_ok ascii_only say_hi_call = true
  ∧ forallb (in_class ascii_only (CNot dquote)) (message say_hi_call) = true
  ∧ match_at ascii_only tail_re say_hi_after_comment = None
  ∧ (∀ i, i ∈ match_positions ascii_only
               (embedded_quote_line [] say_hi_call say_hi_after_comment) 0 →
          i = length ([] : text))
  ∧ convert_logger_log ascii_only
      (embedded_quote_line [] say_hi_call say_hi_after_comment) =
    embedded_quote_line [] say_hi_call say_hi_after_comment ++ review_marker.
Proof.
  assert (head_ok ascii_only say_hi_call = true) as H1.
  { vm_compute. reflexivity. }
  assert (forallb (in_class ascii_only (CNot dquote)) (message say_hi_call)
          = true) as H2.
  { vm_compute. reflexivity. }
  assert (match_at ascii_only tail_re say_hi_after_comment = None) as H3.
  { vm_compute. reflexivity. }
  assert (∀ i, i ∈ match_positions ascii_only
                 (embedded_quote_line [] say_hi_call say_hi_after_comment) 0 →
               i = length ([] : text)) as H4.
  { intros i Hi. vm_compute in Hi. by apply elem_of_nil in Hi. }
  split; [exact H1|]. split; [exact H2|]. split; [exact H3|].
  split; [exact H4|].
  exact (proj2 (proj1 (proj2
           (embedded_quote_flagged ascii_only [] say_hi_call
              say_hi_after_comment H1 H2))) (conj H3 H4)).
Defined.

(** C1 on a path that is its file's name. *)
Lemma marker_lands_after_newline_witness :
  plain_resolve (str "a.cpp") = inr (str "a.cpp")
  ∧ process_file ascii_only plain_resolve (str "a.cpp")
      (World {[ str "a.cpp" := File flagged_file true true ]} []) =
    inr (World {[ str "a.cpp" := File flagged_file_processed true true ]}
           ([] ++ [str "Processed: " ++ str "a.cpp"])).
Proof.
  assert (plain_resolve (str "a.cpp") = inr (str "a.cpp")) as H.
  { vm_compute. reflexivity. }
  split; [exact H|].
  exact (proj2 (proj2
           (marker_lands_after_newline ascii_only plain_resolve
              (str "a.cpp") (str "a.cpp") [] H))).
Defined.

(** C6 on a run over three paths, the second of which names no file:
    the first and the third are processed all the same. *)
Lemma main_exit_codes_and_failures_witness :
  process_file ascii_only plain_resolve (str "missing.cpp")
    (foldl (process_or_report ascii_only errno_text plain_resolve)
       (World example_files []) [str "./a.cpp"]) =
    inl (FileNotFoundError (str "missing.cpp"))
  ∧ main ascii_only errno_text plain_resolve
      (str "convert_logging.py"
       :: [str "./a.cpp"] ++ str "missing.cpp" :: [str "c.cpp"])
      (World example_files []) =
    (foldl (process_or_report ascii_only errno_text plain_resolve)
       (World
          (files (foldl (process_or_report ascii_only errno_text plain_resolve)
                    (World example_files []) [str "./a.cpp"]))
          (stdout (foldl (process_or_report ascii_only errno_text plain_resolve)
                     (World example_files []) [str "./a.cpp"])
           ++ [str "Error processing " ++ str "missing.cpp" ++ str ": "
               ++ errno_text (FileNotFoundError (str "missing.cpp"))]))
       [str "c.cpp"], 0%Z)
  ∧ main ascii_only errno_text plain_resolve
      [str "convert_logging.py"; str "./a.cpp"; str "missing.cpp"; str "c.cpp"]
      (World example_files []) =
    (World example_files_processed
       [ str "Processed: ./a.cpp";
         str "Error processing missing.cpp: [Errno 2] No such file or directory: 'missing.cpp'";
         str "Processed: c.cpp" ], 0%Z).
Proof.
  assert (process_file ascii_only plain_resolve (str "missing.cpp")
            (foldl (process_or_report ascii_only errno_text plain_resolve)
               (World example_files []) [str "./a.cpp"])
          = inl (FileNotFoundError (str "missing.cpp"))) as H.
  { vm_compute. reflexivity. }
  split; [exact H|]. split.
  - exact (proj1 (proj1 (proj2 (proj2
             (main_exit_codes_and_failures ascii_only errno_text plain_resolve)))
             (str "convert_logging.py") [str "./a.cpp"] (str "missing.cpp")
             [str "c.cpp"] (World example_files []) _ H)).
  - vm_compute. reflexivity.
Defined.

(** * More of the code on examples *)

(** X3 on a call that logs at a TRACE level. *)
Lemma unknown_level_becomes_info_witness :
  call_ok ascii_only trace_call = true
  ∧ (call_level trace_call ∉ level_tokens)
  ∧ contains legacy_name (str "x(); ") = false
  ∧ contains legacy_name (str " y();") = false
  ∧ convert_logger_log ascii_only
      (str "x(); " ++ call_text trace_call ++ str " y();") =
    str "x(); " ++ str "SLOG_INFO().message(" ++ [dquote]
    ++ message trace_call ++ [dquote] ++ str ");" ++ str " y();".
Proof.
  assert (call_ok ascii_only trace_call = true) as H1.
  { vm_compute. reflexivity. }
  assert (call_level trace_call ∉ level_tokens) as H2.
  { apply (bool_decide_unpack _). vm_compute. exact I. }
  assert (contains legacy_name (str "x(); ") = false) as H3.
  { vm_compute. reflexivity. }
  assert (contains legacy_name (str " y();") = false) as H4.
  { vm_compute. reflexivity. }
  split; [exact H1|]. split; [exact H2|]. split; [exact H3|].
  split; [exact H4|].
  exact (unknown_level_becomes_info ascii_only _ _ _ H1 H2 H3 H4).
Defined.

(** X4 on a line that is one call. *)
Lemma line_feed_kept_witness :
  (contains legacy_name (call_text disk_full_call) = false
   ∨ has_match ascii_only pattern (call_text disk_full_call) = true)
  ∧ convert_logger_log ascii_only (call_text disk_full_call ++ [newline]) =
    convert_logger_log ascii_only (call_text disk_full_call) ++ [newline].
Proof.
  assert (contains legacy_name (call_text disk_full_call) = false
          ∨ has_match ascii_only pattern (call_text disk_full_call) = true)
    as H.
  { right. vm_compute. reflexivity. }
  split; [exact H|].
  exact (line_feed_kept ascii_only _ H).
Defined.

(** X5 on a line with two calls among other code. *)
Lemma clean_calls_second_pass_witness :
  forallb (clean_segment ascii_only)
    [(str "a(); ", disk_full_call); (str " b(); ", started_call)] = true
  ∧ contains legacy_name (str " c();") = false
  ∧ convert_logger_log ascii_only
      (interleave replacement
         [(str "a(); ", disk_full_call); (str " b(); ", started_call)]
         (str " c();")) =
    interleave replacement
      [(str "a(); ", disk_full_call); (str " b(); ", started_call)]
      (str " c();")
  ∧ convert_logger_log ascii_only
      (convert_logger_log ascii_only
         (interleave call_text
            [(str "a(); ", disk_full_call); (str " b(); ", started_call)]
            (str " c();"))) =
    convert_logger_log ascii_only
      (interleave call_text
         [(str "a(); ", disk_full_call); (str " b(); ", started_call)]
         (str " c();")).
Proof.
  assert (forallb (clean_segment ascii_only)
            [(str "a(); ", disk_full_call); (str " b(); ", started_call)]
          = true) as H1.
  { vm_compute. reflexivity. }
  assert (contains legacy_name (str " c();") = false) as H2.
  { vm_compute. reflexivity. }
  split; [exact H1|]. split; [exact H2|].
  exact (clean_calls_second_pass ascii_only _ _ H1 H2).
Defined.

(** X6 on a file of other code, reached by a path with [./]. *)
Lemma process_file_without_calls_witness :
  plain_resolve (str "./c.cpp") = inr (str "c.cpp")
  ∧ files (World example_files []) !! str "c.cpp" =
      Some (File (str "int x;" ++ [newline]) true true)
  ∧ contains legacy_name (universal_newlines (str "int x;" ++ [newline])) = false
  ∧ process_file ascii_only plain_resolve (str "./c.cpp")
      (World example_files []) =
    inr (World
           (<[ str "c.cpp" :=
                 File (universal_newlines (str "int x;" ++ [newline])) true true ]>
              (files (World example_files [])))
           (stdout (World example_files [])
            ++ [str "Processed: " ++ str "./c.cpp"])).
Proof.
  assert (plain_resolve (str "./c.cpp") = inr (str "c.cpp")) as H0.
  { vm_compute. reflexivity. }
  assert (files (World example_files []) !! str "c.cpp"
          = Some (File (str "int x;" ++ [newline]) true true)) as H1.
  { vm_compute. reflexivity. }
  assert (contains legacy_name (universal_newlines (str "int x;" ++ [newline]))
          = false) as H2.
  { vm_compute. reflexivity. }
  split; [exact H0|]. split; [exact H1|]. split; [exact H2|].
  exact (proj1 (process_file_without_calls ascii_only plain_resolve
                  _ _ _ _ H0 H1 H2)).
Defined.

(** X8 on a run over [./a.cpp]: the file [a.cpp] is rewritten, under
    the name it is kept by, and [c.cpp] is left alone. *)
Lemma main_touches_named_files_only_witness :
  (∀ p, p ∈ drop 1 [str "convert_logging.py"; str "./a.cpp"] →
        plain_resolve p ≠ inr (str "c.cpp"))
  ∧ files (main ascii_only errno_text plain_resolve
             [str "convert_logging.py"; str "./a.cpp"]
             (World example_files [])).1
      !! str "c.cpp"
    = files (World example_files []) !! str "c.cpp"
  ∧ files (main ascii_only errno_text plain_resolve
             [str "convert_logging.py"; str "./a.cpp"]
             (World example_files [])).1
    = example_files_processed.
Proof.
  assert (∀ p, p ∈ drop 1 [str "convert_logging.py"; str "./a.cpp"] →
               plain_resolve p ≠ inr (str "c.cpp")) as H.
  { intros p Hp. cbn [drop] in Hp. apply list_elem_of_singleton in Hp.
    rewrite Hp. vm_compute. discriminate. }
  split; [exact H|]. split.
  - exact (main_touches_named_files_only ascii_only errno_text plain_resolve
             _ _ _ H).
  - vm_compute. reflexivity.
Defined.

(** X9 on a run over two paths. *)
Lemma main_reports_each_path_witness :
  (2 ≤ length [str "convert_logging.py"; str "a.cpp"; str "b.cpp"])%nat
  ∧ ∃ lines,
      stdout (main ascii_only errno_text plain_resolve
                [str "convert_logging.py"; str "a.cpp"; str "b.cpp"]
                (World example_files [])).1
      = stdout (World example_files []) ++ lines
      ∧ Forall2 (report_line errno_text)
          (drop 1 [str "convert_logging.py"; str "a.cpp"; str "b.cpp"]) lines.
Proof.
  assert (2 ≤ length [str "convert_logging.py"; str "a.cpp"; str "b.cpp"])%nat
    as H.
  { simpl. lia. }
  split; [exact H|].
  exact (main_reports_each_path ascii_only errno_text plain_resolve _ _ H).
Defined.

(** X10 on a call with a space before its semicolon. *)
Lemma spaced_semicolon_flagged_witness :
  call_ok ascii_only disk_full_call = true
  ∧ str " " ≠ []
  ∧ forallb (is_space ascii_only) (str " ") = true
  ∧ occurrences legacy_name
      (spaced_semicolon_line [] disk_full_call (str " ") []) 0
    = [length ([] : text)]
  ∧ match_at ascii_only pattern
      (call_open disk_full_call ++ str ")" ++ str " " ++ str ";" ++ []) = None
  ∧ convert_logger_log ascii_only
      (spaced_semicolon_line [] disk_full_call (str " ") []) =
    spaced_semicolon_line [] disk_full_call (str " ") [] ++ review_marker.
Proof.
  assert (call_ok ascii_only disk_full_call = true) as H1.
  { vm_compute. reflexivity. }
  assert (str " " ≠ []) as H2.
  { vm_compute. discriminate. }
  assert (forallb (is_space ascii_only) (str " ") = true) as H3.
  { vm_compute. reflexivity. }
  assert (occurrences legacy_name
            (spaced_semicolon_line [] disk_full_call (str " ") []) 0
          = [length ([] : text)]) as H4.
  { vm_compute. reflexivity. }
  split; [exact H1|]. split; [exact H2|]. split; [exact H3|].
  split; [exact H4|].
  exact (spaced_semicolon_flagged ascii_only [] disk_full_call (str " ") []
           H1 H2 H3 H4).
Defined.
